(** * sgf-tree-parser: a shallow embedding of [src/sgf_tree.ts]

    The class [SgfTree] is a mutable tree with parent back-references, so
    the embedding keeps an explicit store of nodes addressed by allocation
    order, and every method becomes a function on that store.

    Conventions.
    - A JavaScript string is a [string]; a character stands for the code
      unit of the same value, so the texts covered are those over the code
      units 0..255.
    - [undefined] in a slot that normally holds a string or a node is
      [None].
    - A method that can raise returns an [outcome]: [TypeError] is the
      JavaScript exception, [Stuck] marks a situation the embedding does not
      follow (an address that is not in the store, an array access outside
      the bounds of the array in [shift]).
    - The numbers of [TreeCoordinates] are integers ([Z]). *)

From Stdlib Require Import ZArith Ascii String Lia.
From stdpp Require Import base option list strings.

Set Warnings "-register-all".

Local Open Scope Z_scope.
Local Open Scope stdpp_scope.

(** ** Outcomes of a call *)

Inductive outcome (A : Type) : Type :=
| Ok (a : A)
| TypeError
| Stuck.
Arguments Ok {A} a.
Arguments TypeError {A}.
Arguments Stuck {A}.

Global Instance outcome_ret : MRet outcome := fun A a => Ok a.
Global Instance outcome_bind : MBind outcome := fun A B f m =>
  match m with
  | Ok a => f a
  | TypeError => TypeError
  | Stuck => Stuck
  end.

Definition is_ok {A} (m : outcome A) : bool :=
  match m with Ok _ => true | _ => false end.

(** ** Strings, as the built-ins of the source use them *)

Module Str.

(** [s + c] for a one-character [c]. *)
Definition snoc (s : string) (c : ascii) : string := s +:+ String c "".

(** [s.split(sep)] for a one-character separator. *)
Fixpoint split (sep : ascii) (s : string) : list string :=
  match s with
  | EmptyString => [""]
  | String c s' =>
      if Ascii.eqb c sep then "" :: split sep s'
      else match split sep s' with
           | h :: t => String c h :: t
           | [] => [String c ""]
           end
  end.

(** [s.includes(c)] for a one-character [c]. *)
Fixpoint includes (c : ascii) (s : string) : bool :=
  match s with
  | EmptyString => false
  | String x s' => Ascii.eqb x c || includes c s'
  end.

(** [s.slice(1)]. *)
Definition slice1 (s : string) : string :=
  match s with
  | EmptyString => ""
  | String _ s' => s'
  end.

(** [m !== ""]. *)
Definition nonempty (s : string) : bool :=
  match s with EmptyString => false | _ => true end.

(** [xs.join(sep)]. *)
Fixpoint join (sep : string) (xs : list string) : string :=
  match xs with
  | [] => ""
  | [x] => x
  | x :: rest => x +:+ sep +:+ join sep rest
  end.

(** The elements of [xs] one after the other. *)
Fixpoint concat (xs : list string) : string :=
  match xs with
  | [] => ""
  | x :: rest => x +:+ concat rest
  end.

Fixpoint rev_acc (s acc : string) : string :=
  match s with
  | EmptyString => acc
  | String c s' => rev_acc s' (String c acc)
  end.
Definition rev (s : string) : string := rev_acc s "".

Fixpoint filter (p : ascii -> bool) (s : string) : string :=
  match s with
  | EmptyString => ""
  | String c s' => if p c then String c (filter p s') else filter p s'
  end.

Fixpoint drop_while (p : ascii -> bool) (s : string) : string :=
  match s with
  | EmptyString => ""
  | String c s' => if p c then drop_while p s' else s
  end.

(** White space of [String.prototype.trim] among the code units 0..255:
    TAB, LF, VT, FF, CR, SP and NBSP. *)
Definition is_white (c : ascii) : bool :=
  match c with
  | "009" | "010" | "011" | "012" | "013" | " " | "160" => true
  | _ => false
  end%char.

(** [s.trim()]. *)
Definition trim (s : string) : string :=
  rev (drop_while is_white (rev (drop_while is_white s))).

(** [s.replaceAll(c, "")] for a one-character [c]. *)
Definition remove_all (c : ascii) (s : string) : string :=
  filter (fun x => negb (Ascii.eqb x c)) s.

End Str.

(** What string concatenation makes of a possibly undefined operand. *)
Definition to_text (o : option string) : string := default "undefined" o.

(** ** The helpers of [./array]

    Modelled from the spec: the module [./array] is not among the sources;
    the spec names its helpers "first element" and "is non-empty", ordinary
    container operations. [first] is the element at index 0, which is
    [undefined] for an empty array. *)
Definition first {A} (xs : list A) : option A := head xs.

(** Modelled from the spec: [notEmpty] of [./array], "is non-empty". *)
Definition notEmpty {A} (xs : list A) : bool :=
  match xs with [] => false | _ => true end.

(** ** Property maps

    Modelled from the spec: the type [SgfProperties] of [./sgf] is not among
    the sources; the spec gives it as a mapping from property codes to
    either a single string or an ordered list of strings. *)
Inductive PropValue : Type :=
| PStr (s : string)
| PList (l : list string).

Global Instance PropValue_eq_dec : EqDecision PropValue.
Proof. solve_decision. Defined.

(** The own properties of the object, in insertion order. *)
Abbreviation SgfProperties := (list (string * PropValue)).

Module Obj.

(** The own property [k], if any. *)
Fixpoint get (k : string) (o : SgfProperties) : option PropValue :=
  match o with
  | [] => None
  | (k', v) :: rest => if String.eqb k' k then Some v else get k rest
  end.

(** [o[k] = v]: an existing key keeps its place, a new one goes last. *)
Fixpoint set (k : string) (v : PropValue) (o : SgfProperties)
  : SgfProperties :=
  match o with
  | [] => [(k, v)]
  | (k', v') :: rest =>
      if String.eqb k' k then (k', v) :: rest else (k', v') :: set k v rest
  end.

(** The property names every object literal inherits from
    [Object.prototype]; reading one of them on [{}] gives a function (or,
    for [__proto__], the prototype object): a truthy value that is neither
    a string nor an array. *)
Definition inherited (k : string) : bool :=
  bool_decide (k ∈ [ "constructor"; "hasOwnProperty"; "isPrototypeOf";
                      "propertyIsEnumerable"; "toLocaleString"; "toString";
                      "valueOf"; "__proto__"; "__defineGetter__";
                      "__defineSetter__"; "__lookupGetter__";
                      "__lookupSetter__" ]).

(** A canonical array index: the decimal numeral, without leading zero, of
    a number below 2^32 - 1. *)
Fixpoint digits (s : string) (acc : N) : option N :=
  match s with
  | EmptyString => Some acc
  | String c s' =>
      match Ascii.is_nat c with
      | Some d => digits s' (10 * acc + N.of_nat d)%N
      | None => None
      end
  end.

Definition array_index (k : string) : option N :=
  match k with
  | EmptyString => None
  | String "0" EmptyString => Some 0%N
  | String "0" _ => None
  | _ =>
      if (10 <? String.length k)%nat then None
      else match digits k 0%N with
           | Some n => if (n <? 4294967295)%N then Some n else None
           | None => None
           end
  end.

Fixpoint insert_sorted (n : N) (e : string * PropValue)
    (l : list (N * (string * PropValue))) : list (N * (string * PropValue)) :=
  match l with
  | [] => [(n, e)]
  | (m, e') :: rest =>
      if (n <? m)%N then (n, e) :: l else (m, e') :: insert_sorted n e rest
  end.

(** [Object.entries(o)]: the array-index keys in ascending numeric order,
    then the other keys in insertion order. *)
Definition entries (o : SgfProperties) : list (string * PropValue) :=
  let indexed :=
    foldr (fun e acc =>
             match array_index e.1 with
             | Some n => insert_sorted n e acc
             | None => acc
             end) [] o in
  (snd <$> indexed) ++
  List.filter (fun e => negb (bool_decide (is_Some (array_index e.1)))) o.

End Obj.

(** ** Tokenizer and node property parser *)

(** The loop of [splitBrackets], with its two variables. *)
Fixpoint splitBrackets_loop (s : string) (split : list string)
    (currentString : string) : list string * string :=
  match s with
  | EmptyString => (split, currentString)
  | String c s' =>
      if Ascii.eqb c "[" then splitBrackets_loop s' (split ++ [currentString]) "["
      else if Ascii.eqb c "]" then splitBrackets_loop s' (split ++ [currentString]) ""
      else splitBrackets_loop s' split (Str.snoc currentString c)
  end.

Definition splitBrackets (s : string) : list string :=
  (splitBrackets_loop s [] "").1.

(** A property key as JavaScript uses it: [undefined] names the property
    ["undefined"]. *)
Definition to_key (k : option string) : string := to_text k.

(** One turn of the loop of [parseNodeData]. *)
Definition parseNodeData_step (st : option string * SgfProperties) (c : string)
    : outcome (option string * SgfProperties) :=
  let '(currentKey, nodeData) := st in
  if Str.includes "[" c then
    let newDatum := Str.slice1 c in
    let k := to_key currentKey in
    match Obj.get k nodeData with
    | Some (PStr "") => Ok (currentKey, Obj.set k (PStr newDatum) nodeData)
    | Some (PStr old) => Ok (currentKey, Obj.set k (PList [old; newDatum]) nodeData)
    | Some (PList l) => Ok (currentKey, Obj.set k (PList (l ++ [newDatum])) nodeData)
    | None =>
        if Obj.inherited k then TypeError
        else Ok (currentKey, Obj.set k (PStr newDatum) nodeData)
    end
  else Ok (Some c, nodeData).

Fixpoint parseNodeData_loop (cs : list string)
    (st : option string * SgfProperties)
    : outcome (option string * SgfProperties) :=
  match cs with
  | [] => Ok st
  | c :: rest => st' ← parseNodeData_step st c; parseNodeData_loop rest st'
  end.

(** [parseNodeData]; iterating over [undefined] raises. *)
Definition parseNodeData (nodeDataAsString : option string)
    : outcome SgfProperties :=
  match nodeDataAsString with
  | None => TypeError
  | Some s =>
      let splitData := splitBrackets s in
      st ← parseNodeData_loop splitData (first splitData, []);
      Ok st.2
  end.

(** The text of a value inside a template literal: an array is joined with
    commas. *)
Definition value_text (v : PropValue) : string :=
  match v with
  | PStr s => s
  | PList l => Str.join "," l
  end.

Definition nodeDataToString (sgfProps : SgfProperties) : string :=
  foldl (fun p v => p +:+ v) ""
        ((fun e => e.1 +:+ "[" +:+ value_text e.2 +:+ "]") <$> Obj.entries sgfProps).

(** ** The store of tree nodes *)

Abbreviation addr := nat.

(** The fields of an [SgfTree] object. The arrays of children are kept by
    value: the parser never leaves one array object in two nodes (the
    expander gives the head of a chain a new array and hands the old one to
    the last node), and a caller that passes one array to two constructors
    is not followed. *)
Record SgfTree : Type := mkSgfTree {
  data : SgfProperties;
  children : list addr;
  parent : option addr;
  dataAsString : option string
}.

Definition set_data (d : SgfProperties) (t : SgfTree) : SgfTree :=
  mkSgfTree d (children t) (parent t) (dataAsString t).
Definition set_children (c : list addr) (t : SgfTree) : SgfTree :=
  mkSgfTree (data t) c (parent t) (dataAsString t).
Definition set_parent (p : option addr) (t : SgfTree) : SgfTree :=
  mkSgfTree (data t) (children t) p (dataAsString t).
Definition set_dataAsString (s : option string) (t : SgfTree) : SgfTree :=
  mkSgfTree (data t) (children t) (parent t) s.

Abbreviation store := (list SgfTree).

Definition deref (h : store) (a : addr) : outcome SgfTree :=
  match h !! a with
  | Some t => Ok t
  | None => Stuck
  end.

(** The constructor: the fields of the new object. A property map is an
    object, hence truthy. *)
Definition new_SgfTree (data : SgfProperties) (children : list addr)
    (parent : option addr) (dataAsString : string) : outcome SgfTree :=
  if Str.nonempty dataAsString then
    d ← parseNodeData (Some dataAsString);
    Ok (mkSgfTree d children parent (Some dataAsString))
  else
    Ok (mkSgfTree data children parent (Some (nodeDataToString data))).

(** ** Node-chain expander *)

Fixpoint parseBranch_loop (remaniningNodes : list string) (h : store)
    (currentTree : addr) : outcome (store * addr) :=
  match remaniningNodes with
  | [] => Ok (h, currentTree)
  | nodeDataAsString :: rest =>
      d ← parseNodeData (Some nodeDataAsString);
      newChildren ← new_SgfTree d [] (Some currentTree) nodeDataAsString;
      cur ← deref h currentTree;
      let a := length h in
      let h' := <[currentTree := set_children [a] cur]> h ++ [newChildren] in
      parseBranch_loop rest h' a
  end.

Definition parseBranch (h : store) (tree : addr) : outcome store :=
  t ← deref h tree;
  let children := children t in
  match dataAsString t with
  | None => TypeError
  | Some s =>
      let nodesAsString := List.filter Str.nonempty (Str.split ";" s) in
      let h1 := <[tree := set_dataAsString (first nodesAsString) t]> h in
      let remaniningNodes := tail nodesAsString in
      '(h2, currentTree) ← parseBranch_loop remaniningNodes h1 tree;
      cur ← deref h2 currentTree;
      Ok (<[currentTree := set_children children cur]> h2)
  end.

(** ** Tree scanner *)

Record scanner : Type := mkScanner {
  heap : store;
  currentTree : addr;
  currentString : option string
}.

Definition open_branch (st : scanner) : outcome scanner :=
  let h := heap st in
  cur ← deref h (currentTree st);
  newTree ← new_SgfTree [] [] (Some (currentTree st)) "";
  let a := length h in
  let cur' := set_children (children cur ++ [a])
                (set_dataAsString (currentString st) cur) in
  Ok (mkScanner (<[currentTree st := cur']> h ++ [newTree]) a (Some "")).

Definition close_branch (st : scanner) : outcome scanner :=
  let h := heap st in
  cur ← deref h (currentTree st);
  let h1 := <[currentTree st := set_dataAsString (currentString st) cur]> h in
  h2 ← parseBranch h1 (currentTree st);
  cur2 ← deref h2 (currentTree st);
  d ← parseNodeData (dataAsString cur2);
  let h3 := <[currentTree st := set_data d cur2]> h2 in
  match parent cur2 with
  | None => TypeError
  | Some p =>
      up ← deref h3 p;
      Ok (mkScanner h3 p (dataAsString up))
  end.

Definition scan_char (st : scanner) (char : ascii) : outcome scanner :=
  if Ascii.eqb char "(" then open_branch st
  else if Ascii.eqb char ")" then close_branch st
  else Ok (mkScanner (heap st) (currentTree st)
             (Some (Str.snoc (to_text (currentString st)) char))).

Fixpoint scan (sgf : string) (st : scanner) : outcome scanner :=
  match sgf with
  | EmptyString => Ok st
  | String char rest => st' ← scan_char st char; scan rest st'
  end.

Definition parseBranches (sgf : string) : outcome (store * addr) :=
  root ← new_SgfTree [] [] None "";
  st ← scan sgf (mkScanner [root] 0%nat (Some ""));
  Ok (heap st, currentTree st).

Definition sgfCleanup (sgf : string) : string :=
  Str.remove_all "009" (Str.remove_all "010" (Str.trim sgf)).

Definition parseSgf (sgf : string) : outcome (store * addr) :=
  parseBranches (sgfCleanup sgf).

(** ** Serializer *)

(** [toSgf], by recursion on a bound for the depth of the traversal; [None]
    when the bound is too small (or an address is not in the store). A leaf
    whose raw text is [undefined] is rendered the way every caller's
    concatenation renders it. *)
Fixpoint toSgf (fuel : nat) (h : store) (this : addr) : option string :=
  match fuel with
  | O => None
  | S fuel' =>
      t ← h !! this;
      texts ← mapM (toSgf fuel' h) (children t);
      match parent t with
      | None => Some (Str.join "," ((fun c => "(;" +:+ c +:+ ")") <$> texts))
      | Some _ =>
          if notEmpty (children t) then
            if (length (children t) =? 1)%nat then
              Some (to_text (dataAsString t) +:+ ";" +:+ to_text (first texts))
            else
              Some (to_text (dataAsString t) +:+
                    foldl (fun p c => p +:+ "(;" +:+ c +:+ ")") "" texts)
          else Some (to_text (dataAsString t))
      end
  end.

(** The value of [toJson]. *)
Inductive SgfTreeJson : Type :=
| Json (data : SgfProperties) (children : list SgfTreeJson).

Fixpoint toJson (fuel : nat) (h : store) (this : addr) : option SgfTreeJson :=
  match fuel with
  | O => None
  | S fuel' =>
      t ← h !! this;
      cs ← mapM (toJson fuel' h) (children t);
      Some (Json (data t) cs)
  end.

(** ** Tree editor *)

Record TreeCoordinates : Type := mkCoordinates {
  down : Z;
  right : Z
}.

(** The loop of [getDownToParent]: [n] first-child steps. Past a leaf the
    current node is [undefined], and one more step raises. *)
Fixpoint descend (n : nat) (h : store) (currentRoot : option addr)
    : outcome (option addr) :=
  match n with
  | O => Ok currentRoot
  | S n' =>
      match currentRoot with
      | None => TypeError
      | Some a => t ← deref h a; descend n' h (first (children t))
      end
  end.

Definition getDownToParent (h : store) (this : addr) (down : Z)
    : outcome (option addr) :=
  descend (Z.to_nat down) h (Some this).

(** Where [splice(start, ...)] begins in an array of length [len]. *)
Definition splice_start (len : nat) (start : Z) : nat :=
  if start <? 0 then Z.to_nat (Z.max (Z.of_nat len + start) 0)
  else Z.to_nat (Z.min start (Z.of_nat len)).

(** [xs.splice(start, 0, x)]. *)
Definition splice_insert {A} (start : Z) (x : A) (xs : list A) : list A :=
  let k := splice_start (length xs) start in
  take k xs ++ x :: drop k xs.

(** [xs.splice(start, 1)]. *)
Definition splice_remove {A} (start : Z) (xs : list A) : list A :=
  delete (splice_start (length xs) start) xs.

Definition add (h : store) (this tree : addr) (coordinates : TreeCoordinates)
    : outcome store :=
  parentRoot ← getDownToParent h this (down coordinates);
  t ← deref h tree;
  let h1 := <[tree := set_parent parentRoot t]> h in
  match parentRoot with
  | None => TypeError
  | Some p =>
      pr ← deref h1 p;
      Ok (<[p := set_children
                   (splice_insert (right coordinates - 1) tree (children pr)) pr]> h1)
  end.

Definition remove (h : store) (this : addr) (coordinates : TreeCoordinates)
    : outcome store :=
  parentRoot ← getDownToParent h this (down coordinates);
  let right := right coordinates in
  if right =? 0 then Ok h
  else
    match parentRoot with
    | None => TypeError
    | Some p =>
        pr ← deref h p;
        Ok (<[p := set_children (splice_remove (right - 1) (children pr)) pr]> h)
    end.

(** [xs[i]] and [xs[i] = x] inside the bounds of the array; outside them
    the source reads [undefined] or grows the array, which an array of
    nodes cannot hold: [shift_array] below follows the source there. *)
Definition array_get {A} (xs : list A) (i : Z) : outcome A :=
  if i <? 0 then Stuck
  else match xs !! Z.to_nat i with
       | Some x => Ok x
       | None => Stuck
       end.

Definition array_set {A} (xs : list A) (i : Z) (x : A) : outcome (list A) :=
  if (0 <=? i) && (i <? Z.of_nat (length xs)) then Ok (<[Z.to_nat i := x]> xs)
  else Stuck.

Definition shift (h : store) (this : addr) (coordinates : TreeCoordinates)
    (left : bool) : outcome store :=
  parentRoot ← getDownToParent h this (down coordinates);
  match parentRoot with
  | None => TypeError
  | Some p =>
      pr ← deref h p;
      let right := right coordinates in
      child ← array_get (children pr) (right - 1);
      if left then
        leftChild ← array_get (children pr) (right - 2);
        c1 ← array_set (children pr) (right - 2) child;
        c2 ← array_set c1 (right - 1) leftChild;
        Ok (<[p := set_children c2 pr]> h)
      else
        righChild ← array_get (children pr) right;
        c1 ← array_set (children pr) right child;
        c2 ← array_set c1 (right - 1) righChild;
        Ok (<[p := set_children c2 pr]> h)
  end.

(** * Models used in the properties *)

(** ** Stores of the examples of the specification *)

Definition sequence_store : store :=
  [mkSgfTree [] [1%nat] None (Some "");
   mkSgfTree [("B", PStr "aa")] [2%nat] (Some 0%nat) (Some "B[aa]");
   mkSgfTree [("W", PStr "bb")] [] (Some 1%nat) (Some "W[bb]")].

Definition collection_store : store :=
  [mkSgfTree [] [1%nat; 2%nat] None (Some "");
   mkSgfTree [("B", PStr "aa")] [] (Some 0%nat) (Some "B[aa]");
   mkSgfTree [("W", PStr "bb")] [] (Some 0%nat) (Some "W[bb]")].

(** The call [add(newNode, {down: 1, right: 2})] on the root of the tree
    parsed from [(;B[aa];W[bb])], for a node [newNode] allocated next. *)
Definition add_to_sequence (newNode : SgfTree) : outcome store :=
  '(h, root) ← parseSgf "(;B[aa];W[bb])";
  add (h ++ [newNode]) root (length h) (mkCoordinates 1 2).

(** ** What the editor must keep *)

(** The properties and the raw text of a node. *)
Definition payload (t : SgfTree) : SgfProperties * option string :=
  (data t, dataAsString t).

(** ** The tree of raw texts below a node, and the scanner on it *)

(** A node other than the root, seen as its raw text and its children. *)
Inductive Shape : Type :=
| Node (text : string) (kids : list Shape).

(** The non-empty segments of a raw text between semicolons. *)
Definition moves (txt : string) : list string :=
  List.filter Str.nonempty (Str.split ";" txt).

(** The chain that [parseBranch] builds from the moves of a branch: one node
    per move, each the only child of the one before, the children of the
    branch below the last. *)
Fixpoint chain_kids (ms : list string) (kids : list Shape) : list Shape :=
  match ms with
  | [] => kids
  | m :: ms' => [Node m (chain_kids ms' kids)]
  end.

Definition chain (ms : list string) (kids : list Shape) : Shape :=
  match ms with
  | [] => Node "" kids
  | m :: ms' => Node m (chain_kids ms' kids)
  end.

Definition parses (m : string) : bool := is_ok (parseNodeData (Some m)).

(** The open branches of a scan, innermost first: for each, the text
    accumulated for it and its closed children. *)
Abbreviation frames := (list (string * list Shape)).

Definition frames_close (fs : frames) : option frames :=
  match fs with
  | (txt, closed) :: (txt', closed') :: up =>
      match moves txt with
      | [] => None
      | ms =>
          if forallb parses ms then Some ((txt', closed' ++ [chain ms closed]) :: up)
          else None
      end
  | _ => None
  end.

Definition frames_char (fs : frames) (c : ascii) : option frames :=
  if Ascii.eqb c "(" then
    match fs with
    | [] => None
    | _ => Some (("", []) :: fs)
    end
  else if Ascii.eqb c ")" then frames_close fs
  else
    match fs with
    | [] => None
    | (txt, closed) :: up => Some ((Str.snoc txt c, closed) :: up)
    end.

Fixpoint frames_scan (s : string) (fs : frames) : option frames :=
  match s with
  | EmptyString => Some fs
  | String c rest => fs' ← frames_char fs c; frames_scan rest fs'
  end.

(** The store holds the shape [t] at address [a], within the addresses from
    [lo] up to, not including, [hi]. *)
Inductive holds (lo hi : nat) (h : store) : addr → Shape → Prop :=
| holds_node a n text kids :
    (lo ≤ a < hi)%nat →
    h !! a = Some n →
    dataAsString n = Some text →
    parseNodeData (Some text) = Ok (data n) →
    is_Some (parent n) →
    Forall2 (holds lo hi h) (children n) kids →
    holds lo hi h a (Node text kids).

(** The open branches in the store: [a] is the node of the innermost frame
    of [fs], [next] its child on the way to the current node, if any. *)
Fixpoint spine (h : store) (a : addr) (next : option addr) (fs : frames)
    : Prop :=
  match fs with
  | [] => False
  | (txt, closed) :: up =>
      ∃ n ks,
        h !! a = Some n ∧
        children n = ks ++ from_option (λ b, [b]) [] next ∧
        from_option (λ b, (a < b)%nat ∧ dataAsString n = Some txt) True next ∧
        Forall2 (holds (S a) (default (length h) next) h) ks closed ∧
        match up with
        | [] => parent n = None ∧ data n = []
        | _ => ∃ p, parent n = Some p ∧ spine h p (Some a) up
        end
  end.

Definition sim (st : scanner) (fs : frames) : Prop :=
  spine (heap st) (currentTree st) None fs ∧
  ∃ txt closed up, fs = (txt, closed) :: up ∧ currentString st = Some txt.

(** ** Projections of a shape *)

(** The serialization of a node other than the root, from its shape. *)
Fixpoint sgf (t : Shape) : string :=
  match t with
  | Node text kids =>
      let texts := sgf <$> kids in
      if notEmpty kids then
        if (length kids =? 1)%nat then text +:+ ";" +:+ to_text (first texts)
        else text +:+ foldl (λ p c, p +:+ "(;" +:+ c +:+ ")") "" texts
      else text
  end.

(** The properties that a raw text parses to. *)
Definition props (text : string) : SgfProperties :=
  match parseNodeData (Some text) with
  | Ok d => d
  | _ => []
  end.

Fixpoint json (t : Shape) : SgfTreeJson :=
  match t with
  | Node text kids => Json (props text) (json <$> kids)
  end.

Fixpoint height (t : Shape) : nat :=
  match t with
  | Node _ kids => S (max_list (height <$> kids))
  end.

(** The serialization of a root whose children have the shapes [ts]. *)
Definition sgf_root (ts : list Shape) : string :=
  Str.join "," ((λ t, "(;" +:+ sgf t +:+ ")") <$> ts).

(** ** Well-formed texts and shapes *)

(** Every character of [s] satisfies [p]. *)
Fixpoint all_chars (p : ascii → bool) (s : string) : bool :=
  match s with
  | EmptyString => true
  | String c s' => p c && all_chars p s'
  end.

(** Characters that [sgfCleanup] leaves in a text. *)
Definition clean_char (c : ascii) : bool :=
  negb (Ascii.eqb c "010") && negb (Ascii.eqb c "009").

(** Characters that the scanner accumulates. *)
Definition text_char (c : ascii) : bool :=
  negb (Ascii.eqb c "(") && negb (Ascii.eqb c ")") && clean_char c.

(** Characters of a move: those of a text, but the separator. *)
Definition move_char (c : ascii) : bool :=
  negb (Ascii.eqb c ";") && text_char c.

(** A raw text as the expander leaves it on a node. *)
Definition wf_move (m : string) : bool :=
  Str.nonempty m && all_chars move_char m && parses m.

Fixpoint wf_shape (t : Shape) : bool :=
  match t with
  | Node text kids => wf_move text && forallb wf_shape kids
  end.

Definition wf_frames (fs : frames) : Prop :=
  Forall (λ fr, all_chars text_char fr.1 = true ∧
                forallb wf_shape fr.2 = true) fs.

(** The text that a frame has accumulated when it has read the moves
    [ms]. *)
Definition acc_of (ms : list string) : string :=
  Str.concat ((λ m, ";" +:+ m) <$> ms).

(** The chain of the moves [pm] above the shape [t]. *)
Definition prepend (pm : list string) (t : Shape) : Shape :=
  foldr (λ m acc, Node m [acc]) t pm.

(** The statement of [rescan_shape] for one shape. *)
Definition rescans (t : Shape) : Prop :=
  wf_shape t = true → ∀ pm txt dn up more,
    forallb wf_move pm = true →
    frames_scan (String ";" (sgf t +:+ String ")" more))
                ((acc_of pm, []) :: (txt, dn) :: up) =
    frames_scan more ((txt, dn ++ [prepend pm t]) :: up).

(** ** The input grammar

    Modelled from the spec: section 6 gives the grammar of the input,
    [Tree := "(" ";" NodeSeq GameTree* ")"], [NodeSeq := Node (";" Node)*],
    [Node := (PropKey PropValue+)*] and
    [PropValue := "[" AnyCharsExceptCloseBracket "]"]. A [GameTree] is a
    derivation in that grammar, [render_tree] its text and [conforms] the
    side conditions (a node sequence and the values of a key are not empty,
    a value holds no closing bracket). *)
Record Property : Type := mkProperty {
  PropKey : string;
  PropValues : list string
}.

Inductive GameTree : Type :=
| Tree (NodeSeq : list (list Property)) (GameTrees : list GameTree).

Definition render_property (p : Property) : string :=
  PropKey p +:+ Str.concat ((λ v, "[" +:+ v +:+ "]") <$> PropValues p).

Definition render_node (nd : list Property) : string :=
  Str.concat (render_property <$> nd).

Fixpoint render_tree (t : GameTree) : string :=
  match t with
  | Tree nodes subs =>
      "(" +:+ Str.concat ((λ nd, ";" +:+ render_node nd) <$> nodes) +:+
      Str.concat (render_tree <$> subs) +:+ ")"
  end.

Definition conforms_property (p : Property) : bool :=
  notEmpty (PropValues p) &&
  forallb (λ v, negb (Str.includes "]" v)) (PropValues p).

Fixpoint conforms (t : GameTree) : bool :=
  match t with
  | Tree nodes subs =>
      notEmpty nodes && forallb (forallb conforms_property) nodes &&
      forallb conforms subs
  end.

(** The raw texts of the nodes of a sequence. *)
Definition node_texts (nodes : list (list Property)) : list string :=
  render_node <$> nodes.

(** The shape that the text of a game tree stands for. *)
Fixpoint shape_of (t : GameTree) : Shape :=
  match t with
  | Tree nodes subs => chain (node_texts nodes) (shape_of <$> subs)
  end.

(** Game trees that the scanner reads as the grammar means them: every node
    has a text, no text holds a parenthesis, a semicolon, a line feed or a
    tab, and every text parses. *)
Fixpoint plain_tree (t : GameTree) : bool :=
  match t with
  | Tree nodes subs =>
      notEmpty nodes && forallb wf_move (node_texts nodes) &&
      forallb plain_tree subs
  end.

(** ** Further notions used in the properties *)

(** A text without brackets. *)
Definition bracket_free (s : string) : bool :=
  negb (Str.includes "[" s) && negb (Str.includes "]" s).

(** The raw text of one value under a key. *)
Definition prop_text (k v : string) : string := k +:+ "[" +:+ v +:+ "]".

(** An entry that the derived raw text gives back: a single string without
    brackets, under a key without brackets that is neither inherited from
    [Object.prototype] nor an array index. *)
Definition simple_entry (e : string * PropValue) : bool :=
  bracket_free e.1 && negb (Obj.inherited e.1) &&
  negb (bool_decide (is_Some (Obj.array_index e.1))) &&
  match e.2 with
  | PStr v => bracket_free v
  | PList _ => false
  end.

(** The two tokens of one value under a key. *)
Definition prop_tokens (k v : string) : list string := [k; String "[" v].

(** A text with no white space at either end. *)
Definition trimmed (s : string) : Prop :=
  Str.drop_while Str.is_white s = s ∧
  Str.drop_while Str.is_white (Str.rev s) = Str.rev s.

(** A text without parentheses. *)
Definition paren_free (s : string) : bool :=
  negb (Str.includes "(" s) && negb (Str.includes ")" s).

(** [toArray]: the raw text and the array of the children's arrays, by
    recursion on a bound for the depth of the traversal. *)
Inductive SgfTreeStringArray : Type :=
| Arr (dataAsString : option string) (children : list SgfTreeStringArray).

Fixpoint toArray (fuel : nat) (h : store) (this : addr)
    : option SgfTreeStringArray :=
  match fuel with
  | O => None
  | S fuel' =>
      t ← h !! this;
      cs ← mapM (toArray fuel' h) (children t);
      Some (Arr (dataAsString t) cs)
  end.

(** The array form with every raw text parsed. *)
Fixpoint parsed_array (a : SgfTreeStringArray) : SgfTreeJson :=
  match a with
  | Arr text kids =>
      Json (match parseNodeData text with Ok d => d | _ => [] end)
           (parsed_array <$> kids)
  end.

(** The array form of a shape. *)
Fixpoint array_of (t : Shape) : SgfTreeStringArray :=
  match t with
  | Node text kids => Arr (Some text) (array_of <$> kids)
  end.

(** [b] is [a] or below [a] in the store. *)
Inductive reachable (h : store) : addr → addr → Prop :=
| reachable_here a : reachable h a a
| reachable_below a t c b :
    h !! a = Some t → c ∈ children t → reachable h c b → reachable h a b.

(** Game trees whose text the serializer gives back as it is: no game tree
    has exactly one subtree. *)
Fixpoint canonical (g : GameTree) : bool :=
  match g with
  | Tree _ subs => negb (length subs =? 1)%nat && forallb canonical subs
  end.

(** What follows the raw text of a node in its serialization. *)
Definition sgf_tail (kids : list Shape) : string :=
  match kids with
  | [] => ""
  | [k] => String ";" (sgf k)
  | _ => Str.concat ((λ t, "(;" +:+ sgf t +:+ ")") <$> kids)
  end.

(** ** The coordinates of [shift], and its children array outside them *)

(** The coordinates at which [shift] reads two children that exist: the
    child at index [right - 1] and the neighbour it changes places with,
    in an array of [n] children. *)
Definition inside (n : nat) (right : Z) (left : bool) : bool :=
  if left then (2 <=? right) && (right <=? Z.of_nat n)
  else (1 <=? right) && (right <? Z.of_nat n).

(** What an element of a children array can be once [shift] has written
    outside the bounds: a hole, [undefined], or a node. *)
Inductive slot : Type :=
| Hole
| Undefined
| Item (a : addr).

(** An array as the object it is: its elements, and the properties written
    under numbers that are not array indices (negative ones, and those from
    [2^32 - 1] on), in the order of their creation. *)
Record JsArray : Type := mkJsArray {
  elements : list slot;
  others : list (Z * option addr)
}.

Definition is_index (i : Z) : bool := (0 <=? i) && (i <? 2 ^ 32 - 1).

Fixpoint get_other (k : Z) (o : list (Z * option addr)) : option addr :=
  match o with
  | [] => None
  | (k', v) :: o' => if k' =? k then v else get_other k o'
  end.

Fixpoint set_other (k : Z) (v : option addr) (o : list (Z * option addr))
    : list (Z * option addr) :=
  match o with
  | [] => [(k, v)]
  | (k', v') :: o' =>
      if k' =? k then (k', v) :: o' else (k', v') :: set_other k v o'
  end.

(** [children[i]]: [undefined] ([None]) at a hole, past the end, and under
    a number that was never written. *)
Definition js_get (a : JsArray) (i : Z) : option addr :=
  if is_index i then
    match elements a !! Z.to_nat i with
    | Some (Item x) => Some x
    | _ => None
    end
  else get_other i (others a).

(** A value as an element: a node, or [undefined]. *)
Definition slot_of (v : option addr) : slot :=
  match v with
  | Some x => Item x
  | None => Undefined
  end.

(** [children[i] = v]: inside the array the element is replaced; from the
    end on the array grows to length [i + 1], with holes in between; under
    a number that is not an index a property is set. *)
Definition js_set (a : JsArray) (i : Z) (v : option addr) : JsArray :=
  if is_index i then
    let s := slot_of v in
    if (Z.to_nat i <? length (elements a))%nat
    then mkJsArray (<[Z.to_nat i := s]> (elements a)) (others a)
    else mkJsArray (elements a ++
                    replicate (Z.to_nat i - length (elements a)) Hole ++ [s])
                   (others a)
  else mkJsArray (elements a) (set_other i v (others a)).

(** The reads and writes of [shift] on the children array of the node
    reached, for every [right]. *)
Definition shift_array (a : JsArray) (right : Z) (left : bool) : JsArray :=
  let child := js_get a (right - 1) in
  if left then
    let leftChild := js_get a (right - 2) in
    js_set (js_set a (right - 2) child) (right - 1) leftChild
  else
    let righChild := js_get a right in
    js_set (js_set a right child) (right - 1) righChild.

(** An array of nodes, and the nodes of an array that holds nothing else. *)
Definition of_list (cs : list addr) : JsArray := mkJsArray (Item <$> cs) [].

Definition node_of (s : slot) : option addr :=
  match s with
  | Item x => Some x
  | _ => None
  end.

Definition nodes (a : JsArray) : option (list addr) :=
  match others a with
  | [] => mapM node_of (elements a)
  | _ => None
  end.


(** * Properties *)

(** ** Strings *)

Lemma append_cons (c : ascii) (s t : string) :
  String c s +:+ t = String c (s +:+ t).
Proof. reflexivity. Qed.

Lemma append_empty_l (s : string) : "" +:+ s = s.
Proof. reflexivity. Qed.

Lemma append_empty_r (s : string) : s +:+ "" = s.
Proof. induction s as [|c s IH]; [done|]. by rewrite append_cons, IH. Qed.

Lemma append_assoc (s t u : string) : (s +:+ t) +:+ u = s +:+ (t +:+ u).
Proof. induction s as [|c s IH]; [done|]. by rewrite !append_cons, IH. Qed.

(** ** Tokenizer *)

Lemma splitBrackets_loop_app (s t : string) split cur :
  splitBrackets_loop (s +:+ t) split cur =
  splitBrackets_loop t (splitBrackets_loop s split cur).1
                       (splitBrackets_loop s split cur).2.
Proof.
  revert split cur. induction s as [|c s IH]; intros split cur; [done|].
  rewrite append_cons. simpl.
  destruct (Ascii.eqb c "["); [apply IH|].
  destruct (Ascii.eqb c "]"); apply IH.
Qed.

(** Text without brackets only grows the pending token. *)
Lemma splitBrackets_loop_plain (t : string) split cur :
  Str.includes "[" t = false → Str.includes "]" t = false →
  (splitBrackets_loop t split cur).1 = split.
Proof.
  revert cur. induction t as [|c t IH]; intros cur Ho Hc; [done|].
  simpl in *. apply orb_false_iff in Ho as [Ho1 Ho2].
  apply orb_false_iff in Hc as [Hc1 Hc2].
  rewrite Ho1, Hc1. by apply IH.
Qed.

Lemma splitBrackets_trailing (s t : string) :
  Str.includes "[" t = false → Str.includes "]" t = false →
  splitBrackets (s +:+ t) = splitBrackets s.
Proof.
  intros Ho Hc. unfold splitBrackets.
  rewrite splitBrackets_loop_app. by apply splitBrackets_loop_plain.
Qed.

(** C10: plain text after the last closing bracket of a node's raw text
    never reaches the property map: for every [s] and every [t] without
    brackets, the node text [s], a closing bracket and [t] parse to the same
    property map (or raise alike) as [s] and the closing bracket alone. *)
Theorem trailing_text_discarded (s t : string) :
  Str.includes "[" t = false → Str.includes "]" t = false →
  parseNodeData (Some (s +:+ "]" +:+ t)) = parseNodeData (Some (s +:+ "]")).
Proof.
  intros Ho Hc. unfold parseNodeData.
  rewrite <- append_assoc. by rewrite (splitBrackets_trailing _ t Ho Hc).
Qed.

Lemma trailing_text_discarded_witness :
  Str.includes "[" "XY" = false ∧ Str.includes "]" "XY" = false ∧
  parseNodeData (Some "AB[aa]XY") = parseNodeData (Some "AB[aa]").
Proof.
  split; [reflexivity|]. split; [reflexivity|].
  exact (trailing_text_discarded "AB[aa" "XY" eq_refl eq_refl).
Defined.

(** ** Node property parser *)

Example parseNodeData_single :
  parseNodeData (Some "AB[aa]") = Ok [("AB", PStr "aa")].
Proof. reflexivity. Qed.

Example parseNodeData_repeated_key :
  parseNodeData (Some "AB[aa]AB[bb]AB[cc]") = Ok [("AB", PList ["aa"; "bb"; "cc"])].
Proof. reflexivity. Qed.

Example splitBrackets_adjacent_values :
  splitBrackets "AB[aa][bb][cc]" = ["AB"; "[aa"; ""; "[bb"; ""; "[cc"].
Proof. reflexivity. Qed.

Example empty_value_overwritten :
  parseNodeData (Some "AB[]AB[bb]") = Ok [("AB", PStr "bb")].
Proof. reflexivity. Qed.

(** A value token for a key that holds a non-empty string makes the
    two-element list, and one for a key that holds a list is appended. *)
Lemma parseNodeData_step_promotes (k old v : string) (nodeData : SgfProperties) :
  Obj.get k nodeData = Some (PStr old) → old ≠ "" →
  parseNodeData_step (Some k, nodeData) (String "[" v) =
    Ok (Some k, Obj.set k (PList [old; v]) nodeData).
Proof.
  intros Hget Hold. unfold parseNodeData_step. simpl. rewrite Hget.
  by destruct old.
Qed.

Lemma parseNodeData_step_appends (k v : string) (l : list string)
    (nodeData : SgfProperties) :
  Obj.get k nodeData = Some (PList l) →
  parseNodeData_step (Some k, nodeData) (String "[" v) =
    Ok (Some k, Obj.set k (PList (l ++ [v])) nodeData).
Proof. intros Hget. unfold parseNodeData_step. simpl. by rewrite Hget. Qed.

(** C3: on the node text [AB[aa][bb][cc]] the tokenizer flushes an empty
    plain token between a closing and the next opening bracket; the parser
    takes it for a new key, so only the first value stays under [AB] and the
    other two are collected under the empty key. *)
Theorem adjacent_values_leave_key :
  parseNodeData (Some "AB[aa][bb][cc]") =
    Ok [("AB", PStr "aa"); ("", PList ["bb"; "cc"])].
Proof. reflexivity. Qed.

(** C9: a node constructed from the property map [{AB: ["aa", "bb"]}] alone
    gets the raw text [AB[aa,bb]], and that text parses to the single string
    ["aa,bb"] under [AB], not to the list the node holds. *)
Theorem constructed_text_loses_list :
  new_SgfTree [("AB", PList ["aa"; "bb"])] [] None "" =
    Ok (mkSgfTree [("AB", PList ["aa"; "bb"])] [] None (Some "AB[aa,bb]")) ∧
  parseNodeData (Some "AB[aa,bb]") = Ok [("AB", PStr "aa,bb")].
Proof. split; reflexivity. Qed.

(** ** Outcomes *)

Lemma bind_Ok {A B} (m : outcome A) (f : A → outcome B) (b : B) :
  m ≫= f = Ok b → ∃ a, m = Ok a ∧ f a = Ok b.
Proof. destruct m; [eauto|done|done]. Qed.

Lemma deref_Ok (h : store) (a : addr) (t : SgfTree) :
  deref h a = Ok t ↔ h !! a = Some t.
Proof. unfold deref. destruct (h !! a); naive_solver. Qed.

(** Splits a successful sequence of calls into its successful steps. *)
Ltac inv_ok :=
  repeat match goal with
  | H : _ ≫= _ = Ok _ |- _ =>
      let x := fresh "x" in let Hx := fresh "Hx" in
      apply bind_Ok in H as (x & Hx & H)
  | H : deref _ _ = Ok _ |- _ => apply deref_Ok in H
  | H : Ok _ = Ok _ |- _ => injection H as H
  | H : TypeError = Ok _ |- _ => discriminate H
  | H : Stuck = Ok _ |- _ => discriminate H
  | H : match ?o with Some _ => _ | None => _ end = Ok _ |- _ =>
      let E := fresh "E" in destruct o eqn:E
  end.

(** ** Tree editor *)

Lemma payload_insert (h : store) (a : addr) (t t' : SgfTree) :
  h !! a = Some t → payload t' = payload t →
  payload <$> <[a := t']> h = payload <$> h.
Proof.
  intros Ha Hp. rewrite list_fmap_insert, Hp.
  apply list_insert_id. by rewrite list_lookup_fmap, Ha.
Qed.

Lemma payload_lookup (h h' : store) (a : addr) :
  payload <$> h' = payload <$> h →
  data <$> h' !! a = data <$> h !! a ∧
  dataAsString <$> h' !! a = dataAsString <$> h !! a.
Proof.
  intros E.
  assert (payload <$> h' !! a = payload <$> h !! a) as Ea
    by (by rewrite <- !list_lookup_fmap, E).
  destruct (h' !! a) as [t'|], (h !! a) as [t|]; try done.
  simpl in *. injection Ea as Ed Es. by rewrite Ed, Es.
Qed.

Lemma add_payload h this tree c h' :
  add h this tree c = Ok h' → payload <$> h' = payload <$> h.
Proof.
  unfold add. intros H. inv_ok; subst.
  erewrite payload_insert; [|done|done].
  by erewrite payload_insert.
Qed.

Lemma remove_payload h this c h' :
  remove h this c = Ok h' → payload <$> h' = payload <$> h.
Proof.
  unfold remove. intros H. inv_ok.
  destruct (right c =? 0); inv_ok; subst; [done|].
  by erewrite payload_insert.
Qed.

Lemma shift_payload h this c left h' :
  shift h this c left = Ok h' → payload <$> h' = payload <$> h.
Proof.
  unfold shift. intros H. inv_ok.
  destruct left; inv_ok; subst; by erewrite payload_insert.
Qed.

(** C8: whenever [add], [remove] or [shift] returns (the coordinates are
    valid), every node of the tree keeps its properties and its raw text,
    and no node is created or dropped from the store: only arrays of
    children and parent links change. *)
Theorem editor_keeps_payload (h h' : store) (this tree : addr)
    (c : TreeCoordinates) (left : bool) :
  add h this tree c = Ok h' ∨ remove h this c = Ok h' ∨
    shift h this c left = Ok h' →
  length h' = length h ∧
  ∀ a, data <$> h' !! a = data <$> h !! a ∧
       dataAsString <$> h' !! a = dataAsString <$> h !! a.
Proof.
  intros H.
  assert (payload <$> h' = payload <$> h) as E.
  { destruct H as [H|[H|H]];
      eauto using add_payload, remove_payload, shift_payload. }
  split.
  - by rewrite <- (length_fmap payload h'), E, length_fmap.
  - intros a. by apply payload_lookup.
Qed.

Lemma editor_keeps_payload_witness :
  let h := [mkSgfTree [] [1%nat] None (Some "");
            mkSgfTree [("B", PStr "aa")] [2%nat; 3%nat] (Some 0%nat) (Some "B[aa]");
            mkSgfTree [("W", PStr "bb")] [] (Some 1%nat) (Some "W[bb]");
            mkSgfTree [("W", PStr "cc")] [] (Some 1%nat) (Some "W[cc]")] in
  let h' := [mkSgfTree [] [1%nat] None (Some "");
             mkSgfTree [("B", PStr "aa")] [3%nat; 2%nat] (Some 0%nat) (Some "B[aa]");
             mkSgfTree [("W", PStr "bb")] [] (Some 1%nat) (Some "W[bb]");
             mkSgfTree [("W", PStr "cc")] [] (Some 1%nat) (Some "W[cc]")] in
  (add h 0%nat 2%nat (mkCoordinates 1 1) = Ok h' ∨
   remove h 0%nat (mkCoordinates 1 1) = Ok h' ∨
   shift h 0%nat (mkCoordinates 1 1) false = Ok h') ∧
  length h' = length h ∧
  ∀ a, data <$> h' !! a = data <$> h !! a ∧
       dataAsString <$> h' !! a = dataAsString <$> h !! a.
Proof.
  intros h h'.
  assert (add h 0%nat 2%nat (mkCoordinates 1 1) = Ok h' ∨
          remove h 0%nat (mkCoordinates 1 1) = Ok h' ∨
          shift h 0%nat (mkCoordinates 1 1) false = Ok h') as H
    by (right; right; reflexivity).
  split; [exact H|].
  exact (editor_keeps_payload h h' 0%nat 2%nat (mkCoordinates 1 1) false H).
Defined.

Lemma splice_remove_index {A} (i : Z) (xs : list A) :
  0 ≤ i → splice_remove i xs = delete (Z.to_nat i) xs.
Proof.
  intros Hi. unfold splice_remove, splice_start.
  destruct (Z.ltb_spec i 0); [lia|].
  destruct (Z.le_gt_cases i (Z.of_nat (length xs))).
  - by rewrite Z.min_l.
  - rewrite Z.min_r, Nat2Z.id by lia.
    rewrite !delete_take_drop, !drop_ge, !take_ge by lia. done.
Qed.

(** C6: for coordinates inside the contract of the editor (the descent of
    [down] first-child steps is defined, [right] is not negative), [remove]
    with [right = 0] returns and leaves the whole store as it was, and with
    a non-zero [right] returns the store in which the node reached by the
    descent has lost the child at index [right - 1] (the children before it
    and those after it, in order), every other node being untouched. *)
Theorem remove_deletes_one_child (h : store) (this : addr) (down right : Z)
    (parentRoot : option addr) :
  getDownToParent h this down = Ok parentRoot →
  0 ≤ right →
  (right = 0 → remove h this (mkCoordinates down right) = Ok h) ∧
  (right ≠ 0 → ∀ p pr, parentRoot = Some p → h !! p = Some pr →
     remove h this (mkCoordinates down right) =
       Ok (<[p := set_children
                    (take (Z.to_nat (right - 1)) (children pr) ++
                     drop (Z.to_nat right) (children pr)) pr]> h)).
Proof.
  intros Hd Hr. unfold remove. simpl. rewrite Hd. simpl. split.
  - intros ->. done.
  - intros Hnz p pr -> Hp.
    destruct (Z.eqb_spec right 0); [done|].
    unfold deref. rewrite Hp. simpl.
    rewrite splice_remove_index by lia.
    rewrite delete_take_drop.
    replace (S (Z.to_nat (right - 1))) with (Z.to_nat right) by lia. done.
Qed.

Lemma remove_deletes_one_child_witness :
  let h := [mkSgfTree [] [1%nat] None (Some "");
            mkSgfTree [("B", PStr "aa")] [2%nat; 3%nat] (Some 0%nat) (Some "B[aa]");
            mkSgfTree [("W", PStr "bb")] [] (Some 1%nat) (Some "W[bb]");
            mkSgfTree [("W", PStr "cc")] [] (Some 1%nat) (Some "W[cc]")] in
  getDownToParent h 0%nat 1 = Ok (Some 1%nat) ∧ 0 ≤ 1 ∧
  remove h 0%nat (mkCoordinates 1 1) =
    Ok [mkSgfTree [] [1%nat] None (Some "");
        mkSgfTree [("B", PStr "aa")] [3%nat] (Some 0%nat) (Some "B[aa]");
        mkSgfTree [("W", PStr "bb")] [] (Some 1%nat) (Some "W[bb]");
        mkSgfTree [("W", PStr "cc")] [] (Some 1%nat) (Some "W[cc]")].
Proof.
  intros h. split; [reflexivity|]. split; [exact Z.le_0_1|].
  destruct (remove_deletes_one_child h 0%nat 1 1 (Some 1%nat)
              eq_refl Z.le_0_1) as [_ H].
  refine (H _ 1%nat _ eq_refl eq_refl). discriminate.
Defined.

Example remove_right_zero (h : store) (this : addr) :
  remove h this (mkCoordinates 0 0) = Ok h.
Proof. reflexivity. Qed.

(** C6, as stated for every coordinate, fails outside that contract. With
    [right = 0] the call is no no-op when the descent raises: four steps
    down a tree of depth two. With a negative [right] the child at the
    index where [splice] starts is deleted, the first one for [right = -5],
    although no child has the index [right - 1]. *)
Lemma remove_fails_outside_contract :
  ¬ (∀ (h : store) (this : addr) (down : Z),
       remove h this (mkCoordinates down 0) = Ok h) ∧
  ¬ (∀ (h : store) (this : addr) (down right : Z) (p : addr) (pr : SgfTree),
       right ≠ 0 → getDownToParent h this down = Ok (Some p) →
       h !! p = Some pr →
       remove h this (mkCoordinates down right) =
         Ok (<[p := set_children
                      (take (Z.to_nat (right - 1)) (children pr) ++
                       drop (Z.to_nat right) (children pr)) pr]> h)) ∧
  remove [mkSgfTree [] [1%nat] None (Some "");
          mkSgfTree [("B", PStr "aa")] [2%nat; 3%nat] (Some 0%nat) (Some "B[aa]");
          mkSgfTree [("W", PStr "bb")] [] (Some 1%nat) (Some "W[bb]");
          mkSgfTree [("W", PStr "cc")] [] (Some 1%nat) (Some "W[cc]")]
         0%nat (mkCoordinates 4 0) = TypeError ∧
  remove [mkSgfTree [] [1%nat] None (Some "");
          mkSgfTree [("B", PStr "aa")] [2%nat; 3%nat] (Some 0%nat) (Some "B[aa]");
          mkSgfTree [("W", PStr "bb")] [] (Some 1%nat) (Some "W[bb]");
          mkSgfTree [("W", PStr "cc")] [] (Some 1%nat) (Some "W[cc]")]
         0%nat (mkCoordinates 1 (-5)) =
    Ok [mkSgfTree [] [1%nat] None (Some "");
        mkSgfTree [("B", PStr "aa")] [3%nat] (Some 0%nat) (Some "B[aa]");
        mkSgfTree [("W", PStr "bb")] [] (Some 1%nat) (Some "W[bb]");
        mkSgfTree [("W", PStr "cc")] [] (Some 1%nat) (Some "W[cc]")].
Proof.
  split; [|split; [|split; reflexivity]].
  - intros H.
    specialize (H [mkSgfTree [] [1%nat] None (Some "");
                   mkSgfTree [("B", PStr "aa")] [2%nat; 3%nat] (Some 0%nat)
                             (Some "B[aa]");
                   mkSgfTree [("W", PStr "bb")] [] (Some 1%nat) (Some "W[bb]");
                   mkSgfTree [("W", PStr "cc")] [] (Some 1%nat) (Some "W[cc]")]
                  0%nat 4).
    vm_compute in H. discriminate H.
  - intros H.
    specialize (H [mkSgfTree [] [1%nat] None (Some "");
                   mkSgfTree [("B", PStr "aa")] [2%nat; 3%nat] (Some 0%nat)
                             (Some "B[aa]");
                   mkSgfTree [("W", PStr "bb")] [] (Some 1%nat) (Some "W[bb]");
                   mkSgfTree [("W", PStr "cc")] [] (Some 1%nat) (Some "W[cc]")]
                  0%nat 1 (-5) 1%nat _ ltac:(discriminate) eq_refl eq_refl).
    vm_compute in H. discriminate H.
Qed.

(** ** Tree scanner on the examples of the specification *)

(** C4: the text [(;B[aa];W[bb])] parses to a root (node 0, without parent)
    with exactly one child (node 1) of properties [{B: "aa"}], which has
    exactly one child (node 2) of properties [{W: "bb"}], which has no
    children. *)
Theorem sequence_expands_to_chain :
  parseSgf "(;B[aa];W[bb])" = Ok (sequence_store, 0%nat) ∧
  toJson 3 sequence_store 0 =
    Some (Json [] [Json [("B", PStr "aa")] [Json [("W", PStr "bb")] []]]).
Proof. split; vm_compute; reflexivity. Qed.

Example branching_example :
  parseSgf "(;B[aa](;W[bb])(;W[cc]))" =
    Ok ([mkSgfTree [] [1%nat] None (Some "");
         mkSgfTree [("B", PStr "aa")] [2%nat; 3%nat] (Some 0%nat) (Some "B[aa]");
         mkSgfTree [("W", PStr "bb")] [] (Some 1%nat) (Some "W[bb]");
         mkSgfTree [("W", PStr "cc")] [] (Some 1%nat) (Some "W[cc]")], 0%nat).
Proof. vm_compute. reflexivity. Qed.

(** C5, as the code has it: for every new node, the call returns; the
    [B[aa]] node (node 1) then has the two children [W[bb]] (node 2), still
    first, and the new node (node 3), second; the properties and the raw
    text of [B[aa]] are unchanged, and the parent of the new node is
    [B[aa]]. *)
Theorem add_inserts_second (newNode : SgfTree) :
  add_to_sequence newNode =
    Ok [mkSgfTree [] [1%nat] None (Some "");
        mkSgfTree [("B", PStr "aa")] [2%nat; 3%nat] (Some 0%nat) (Some "B[aa]");
        mkSgfTree [("W", PStr "bb")] [] (Some 1%nat) (Some "W[bb]");
        set_parent (Some 1%nat) newNode].
Proof. reflexivity. Qed.

(** C5, as stated, fails: after the call [W[bb]] (node 2) is not the third
    child of [B[aa]] (node 1), which has two children only. *)
Lemma add_does_not_push_to_third :
  ¬ ∃ h' b, add_to_sequence (mkSgfTree [("B", PStr "cc")] [] None (Some "B[cc]"))
              = Ok h' ∧
            h' !! 1%nat = Some b ∧ children b !! 2%nat = Some 2%nat.
Proof.
  intros (h' & b & Hadd & Hb & Hc).
  vm_compute in Hadd. injection Hadd as <-.
  injection Hb as <-. discriminate Hc.
Qed.

(** C2: the root of the tree parsed from [(;B[aa])(;W[bb])] (node 0,
    without parent) has two children, and its serialization puts a comma
    between their two groups. *)
Theorem root_groups_joined_by_comma :
  parseSgf "(;B[aa])(;W[bb])" = Ok (collection_store, 0%nat) ∧
  toSgf 2 collection_store 0 = Some "(;B[aa]),(;W[bb])".
Proof. split; vm_compute; reflexivity. Qed.

(** C7: on a node whose raw text is [;] (node 1, as the scanner has it
    when it closes the branch of [(;)]) the expander returns and leaves
    [undefined] as raw text; the statement that follows it in the scanner
    parses that raw text and raises, so the texts [()] and [(;)] do not
    parse. *)
Theorem empty_branch_raises :
  parseBranch [mkSgfTree [] [1%nat] None (Some "");
               mkSgfTree [] [] (Some 0%nat) (Some ";")] 1 =
    Ok [mkSgfTree [] [1%nat] None (Some "");
        mkSgfTree [] [] (Some 0%nat) None] ∧
  parseNodeData None = TypeError ∧
  parseSgf "()" = TypeError ∧
  parseSgf "(;)" = TypeError.
Proof. repeat split; vm_compute; reflexivity. Qed.

(** ** Shapes in the store *)

Lemma Shape_forall_ind (P : Shape → Prop) :
  (∀ text kids, Forall P kids → P (Node text kids)) → ∀ t, P t.
Proof.
  intros step. fix self 1. intros [text kids]. apply step.
  induction kids as [|k kids IH]; constructor; [apply self|exact IH].
Qed.

Lemma Forall2_impl_Forall_r {A B} (P : B → Prop) (R R' : A → B → Prop) xs ys :
  Forall P ys → Forall2 R xs ys → (∀ x y, P y → R x y → R' x y) →
  Forall2 R' xs ys.
Proof.
  intros HP HR Himp. revert HP.
  induction HR as [|x y xs ys Hxy _ IH]; intros HP; [constructor|].
  inversion HP; subst. constructor; auto.
Qed.

(** A shape stays in place when the store changes outside its addresses. *)
Lemma holds_mono lo hi lo' hi' (h h' : store) a t :
  holds lo hi h a t → (lo' ≤ lo)%nat → (hi ≤ hi')%nat →
  (∀ i, (lo ≤ i < hi)%nat → h' !! i = h !! i) →
  holds lo' hi' h' a t.
Proof.
  intros Hh Hlo Hhi Hsame. revert a Hh.
  induction t as [text kids IH] using Shape_forall_ind; intros a Hh.
  inversion Hh as [a' n text' kids' Hr Hn Hs Hp Hpar Hk]. subst.
  apply (holds_node _ _ _ _ n); [lia| |done|done|done|].
  - by rewrite Hsame.
  - eapply Forall2_impl_Forall_r; [exact IH|exact Hk|]. auto.
Qed.

Lemma spine_frame (h h' : store) fs : ∀ a b,
  spine h a (Some b) fs → (∀ i, (i < b)%nat → h' !! i = h !! i) →
  spine h' a (Some b) fs.
Proof.
  induction fs as [|[txt dn] up IH]; intros a b Hs Hsame; [done|].
  destruct Hs as (n & ks & Hn & Hc & [Hab Hd] & Hk & Hup).
  exists n, ks. simpl in *. split; [by rewrite Hsame|].
  split; [done|]. split; [done|]. split.
  - eapply Forall2_impl; [exact Hk|]. intros c k Hck.
    eapply holds_mono; [exact Hck|lia|lia|]. intros i Hi. apply Hsame. lia.
  - destruct up as [|fr up']; [done|].
    destruct Hup as (p & Hp & Hsp). exists p. split; [done|].
    apply IH; [done|]. intros i Hi.
    destruct fr as [txt' dn']. destruct Hsp as (np & _ & _ & _ & [Hpa _] & _).
    apply Hsame. simpl in Hpa. lia.
Qed.

(** ** The node property parser never leaves the embedding *)

Lemma parseNodeData_loop_cases cs st :
  parseNodeData_loop cs st ≠ Stuck.
Proof.
  revert st. induction cs as [|c cs IH]; intros st; [done|].
  simpl. destruct (parseNodeData_step st c) as [st'| |] eqn:E; simpl; [apply IH|done|].
  unfold parseNodeData_step in E. destruct st as [k nd].
  destruct (Str.includes "[" c); [|done].
  destruct (Obj.get (to_key k) nd) as [[[|]|]|]; try done.
  by destruct (Obj.inherited (to_key k)).
Qed.

Lemma parses_false (m : string) :
  parses m = false → parseNodeData (Some m) = TypeError.
Proof.
  unfold parses, parseNodeData.
  pose proof (parseNodeData_loop_cases (splitBrackets m) (first (splitBrackets m), [])) as H.
  destruct (parseNodeData_loop _ _); simpl; done.
Qed.

Lemma parses_true (m : string) :
  parses m = true → ∃ d, parseNodeData (Some m) = Ok d.
Proof. unfold parses. destruct (parseNodeData (Some m)); [eauto|done|done]. Qed.

(** ** The node-chain expander on the store *)

Lemma lookup_grow_old (h : store) a x y i :
  (i < length h)%nat → (<[a := x]> h ++ [y]) !! i = <[a := x]> h !! i.
Proof. intros Hi. apply lookup_app_l. by rewrite length_insert. Qed.

Lemma lookup_grow_new (h : store) a x y :
  (<[a := x]> h ++ [y]) !! length h = Some y.
Proof.
  rewrite lookup_app_r by (by rewrite length_insert).
  by rewrite length_insert, Nat.sub_diag.
Qed.

Lemma new_SgfTree_move d cs p m dm :
  Str.nonempty m = true → parseNodeData (Some m) = Ok dm →
  new_SgfTree d cs p m = Ok (mkSgfTree dm cs p (Some m)).
Proof. intros Hm Hd. unfold new_SgfTree. by rewrite Hm, Hd. Qed.

Lemma bind_ok_l {A B} (a : A) (f : A → outcome B) : Ok a ≫= f = f a.
Proof. reflexivity. Qed.

Lemma parseBranch_loop_cons m ms (h : store) a :
  parseBranch_loop (m :: ms) h a =
    d ← parseNodeData (Some m);
    newChildren ← new_SgfTree d [] (Some a) m;
    cur ← deref h a;
    parseBranch_loop ms (<[a := set_children [length h] cur]> h ++ [newChildren])
                     (length h).
Proof. reflexivity. Qed.

Lemma deref_Some (h : store) a n : h !! a = Some n → deref h a = Ok n.
Proof. apply deref_Ok. Qed.

Lemma parseBranch_loop_ok ms : ∀ (h : store) a n kids dn lo hi,
  h !! a = Some n →
  Forall (λ m, Str.nonempty m = true ∧ parses m = true) ms →
  Forall2 (holds lo hi h) kids dn →
  (hi ≤ length h)%nat → (lo ≤ length h)%nat → (a < lo ∨ hi ≤ a)%nat →
  ∃ h' last nl,
    parseBranch_loop ms h a = Ok (h', last) ∧ h' !! last = Some nl ∧
    (length h ≤ length h')%nat ∧
    (∀ i, (i < length h)%nat → i ≠ a →
          <[last := set_children kids nl]> h' !! i = h !! i) ∧
    ∃ cs, <[last := set_children kids nl]> h' !! a = Some (set_children cs n) ∧
          Forall2 (holds lo (length h') (<[last := set_children kids nl]> h'))
                  cs (chain_kids ms dn).
Proof.
  induction ms as [|m ms IH]; intros h a n kids dn lo hi Ha Hms Hk Hhi Hlo Hout.
  - exists h, a, n. simpl. pose proof (lookup_lt_Some _ _ _ Ha) as Hlt.
    split; [done|]. split; [done|]. split; [done|]. split.
    + intros i _ Hi. by rewrite list_lookup_insert_ne.
    + exists kids. split; [by rewrite list_lookup_insert_eq|].
      eapply Forall2_impl; [exact Hk|]. intros c k Hck.
      eapply holds_mono; [exact Hck|lia|lia|].
      intros i Hi. rewrite list_lookup_insert_ne; [done|lia].
  - inversion Hms as [|m' ms' [Hne Hp] Hms']; subst.
    destruct (parses_true m Hp) as [d Hd].
    pose proof (lookup_lt_Some _ _ _ Ha) as Hlt.
    set (new := mkSgfTree d [] (Some a) (Some m)).
    set (h1 := <[a := set_children [length h] n]> h ++ [new]).
    assert (length h1 = S (length h)) as Hlen1.
    { unfold h1. rewrite length_app, length_insert. simpl. lia. }
    assert (∀ i, (i < length h)%nat → i ≠ a → h1 !! i = h !! i) as Hsame1.
    { intros i Hi Hia. unfold h1. rewrite lookup_grow_old by done.
      by rewrite list_lookup_insert_ne. }
    destruct (IH h1 (length h) new kids dn lo hi) as
      (h' & last & nl & Hloop & Hlast & Hlen & Hsame & cs & Hcs & Hhold).
    + apply lookup_grow_new.
    + done.
    + eapply Forall2_impl; [exact Hk|]. intros c k Hck.
      eapply holds_mono; [exact Hck|lia|lia|].
      intros i Hi. apply Hsame1; lia.
    + lia.
    + lia.
    + lia.
    + exists h', last, nl. split.
      { rewrite parseBranch_loop_cons, Hd, bind_ok_l.
        rewrite (new_SgfTree_move d [] (Some a) m d Hne Hd), bind_ok_l.
        rewrite (deref_Some _ _ _ Ha), bind_ok_l. exact Hloop. }
      split; [done|]. split; [lia|]. split.
      { intros i Hi Hia. rewrite Hsame by lia. by apply Hsame1. }
      exists [length h]. split.
      { rewrite Hsame by lia. unfold h1. rewrite lookup_grow_old by done.
        by rewrite list_lookup_insert_eq. }
      simpl. constructor; [|constructor].
      apply (holds_node _ _ _ _ (set_children cs new)); try done; lia.
Qed.

Lemma parseBranch_loop_fail ms : ∀ (h : store) a n,
  h !! a = Some n →
  Forall (λ m, Str.nonempty m = true) ms →
  forallb parses ms = false →
  parseBranch_loop ms h a = TypeError.
Proof.
  induction ms as [|m ms IH]; intros h a n Ha Hne Hf; [done|].
  inversion Hne as [|m' ms' Hm Hms]; subst.
  rewrite parseBranch_loop_cons. simpl in Hf.
  destruct (parses m) eqn:Hp.
  - destruct (parses_true m Hp) as [d Hd]. rewrite Hd, bind_ok_l.
    rewrite (new_SgfTree_move d [] (Some a) m d Hm Hd), bind_ok_l.
    rewrite (deref_Some _ _ _ Ha), bind_ok_l.
    eapply IH; [apply lookup_grow_new|done|done].
  - by rewrite (parses_false m Hp).
Qed.

Lemma moves_nonempty txt : Forall (λ m, Str.nonempty m = true) (moves txt).
Proof.
  unfold moves. apply Forall_forall. intros m Hm.
  apply list_elem_of_In, List.filter_In in Hm. tauto.
Qed.

Lemma forallb_parses ms :
  Forall (λ m, Str.nonempty m = true) ms → forallb parses ms = true →
  Forall (λ m, Str.nonempty m = true ∧ parses m = true) ms.
Proof.
  intros Hne Hp. apply Forall_forall. intros m Hm. split.
  - by apply (proj1 (Forall_forall _ _) Hne).
  - apply (proj1 (forallb_forall _ _) Hp). by apply list_elem_of_In.
Qed.

(** What [parseBranch] does to a node whose children are closed. *)
Lemma parseBranch_spec (h : store) a n dn txt lo :
  h !! a = Some n → dataAsString n = Some txt →
  Forall2 (holds lo (length h) h) (children n) dn →
  (a < lo ≤ length h)%nat →
  match moves txt with
  | [] => ∃ h' n', parseBranch h a = Ok h' ∧ h' !! a = Some n' ∧
                   dataAsString n' = None
  | m :: ms =>
      if forallb parses ms then
        ∃ h' cs, parseBranch h a = Ok h' ∧ (length h ≤ length h')%nat ∧
          (∀ i, (i < length h)%nat → i ≠ a → h' !! i = h !! i) ∧
          h' !! a = Some (set_children cs (set_dataAsString (Some m) n)) ∧
          Forall2 (holds lo (length h') h') cs (chain_kids ms dn)
      else parseBranch h a = TypeError
  end.
Proof.
  intros Ha Hs Hk [Hlo Hhi].
  pose proof (lookup_lt_Some _ _ _ Ha) as Hlt.
  pose proof (moves_nonempty txt) as Hne.
  unfold parseBranch. rewrite (deref_Some _ _ _ Ha), bind_ok_l, Hs.
  fold (moves txt). destruct (moves txt) as [|m ms]; simpl first; simpl tail.
  - cbn [parseBranch_loop]. rewrite bind_ok_l.
    rewrite (deref_Some _ _ (set_dataAsString None n))
      by (by rewrite list_lookup_insert_eq).
    rewrite bind_ok_l. eexists _, _. split; [done|].
    split; [by rewrite list_lookup_insert_eq; [|rewrite length_insert]|done].
  - inversion Hne as [|m' ms' Hm Hms]; subst.
    set (n1 := set_dataAsString (Some m) n).
    set (h1 := <[a := n1]> h).
    assert (length h1 = length h) as Hlen1 by apply length_insert.
    destruct (forallb parses ms) eqn:Hall.
    + destruct (parseBranch_loop_ok ms h1 a n1 (children n) dn lo (length h))
        as (h' & last & nl & Hloop & Hlast & Hlen & Hsame & cs & Hcs & Hhold).
      * by apply list_lookup_insert_eq.
      * by apply forallb_parses.
      * eapply Forall2_impl; [exact Hk|]. intros c k Hck.
        eapply holds_mono; [exact Hck|lia|lia|].
        intros i Hi. unfold h1. rewrite list_lookup_insert_ne; [done|lia].
      * lia.
      * lia.
      * lia.
      * rewrite Hloop, bind_ok_l. cbn [fst snd].
        rewrite (deref_Some _ _ _ Hlast), bind_ok_l.
        eexists _, cs. split; [done|]. rewrite length_insert.
        split; [lia|]. split.
        { intros i Hi Hia. rewrite Hsame by lia.
          unfold h1. by rewrite list_lookup_insert_ne. }
        split; [exact Hcs|]. exact Hhold.
    + by rewrite (parseBranch_loop_fail ms h1 a n1)
        by (done || by apply list_lookup_insert_eq).
Qed.

(** ** The scanner follows the frames *)

Lemma sim_open st fs :
  sim st fs → ∃ st', open_branch st = Ok st' ∧ sim st' (("", []) :: fs).
Proof.
  destruct st as [h cur cs]. intros [Hsp (txt & dn & up & -> & Hcs)].
  simpl in Hsp, Hcs. subst cs.
  destruct Hsp as (n & ks & Hn & Hc & _ & Hk & Hup). simpl in Hc, Hk.
  rewrite app_nil_r in Hc.
  pose proof (lookup_lt_Some _ _ _ Hn) as Hlt.
  unfold open_branch. cbn [heap currentTree currentString].
  rewrite (deref_Some _ _ _ Hn), bind_ok_l.
  change (new_SgfTree [] [] (Some cur) "")
    with (Ok (mkSgfTree [] [] (Some cur) (Some ""))).
  rewrite bind_ok_l. eexists. split; [done|].
  set (n' := set_children (children n ++ [length h])
               (set_dataAsString (Some txt) n)).
  set (new := mkSgfTree [] [] (Some cur) (Some "")).
  set (h' := <[cur := n']> h ++ [new]).
  assert (∀ i, (i < length h)%nat → i ≠ cur → h' !! i = h !! i) as Hsame.
  { intros i Hi Hic. unfold h'. rewrite lookup_grow_old by done.
    by rewrite list_lookup_insert_ne. }
  split; [|by eexists _, _, _].
  cbn [heap currentTree]. exists new, []. split; [apply lookup_grow_new|].
  split; [done|]. split; [done|]. split; [constructor|].
  exists cur. split; [done|].
  exists n', ks. split.
  { unfold h'. rewrite lookup_grow_old by done.
    by rewrite list_lookup_insert_eq. }
  split; [by rewrite <- Hc|]. split; [done|]. split.
  - eapply Forall2_impl; [exact Hk|]. intros c k Hck. simpl.
    eapply holds_mono; [exact Hck|lia|lia|].
    intros i Hi. apply Hsame; lia.
  - destruct up as [|fr up']; [done|].
    destruct Hup as (p & Hp & Hsp). exists p. split; [done|].
    eapply spine_frame; [exact Hsp|]. intros i Hi. apply Hsame; lia.
Qed.

Lemma sim_plain st fs c txt dn up :
  sim st fs → fs = (txt, dn) :: up →
  sim (mkScanner (heap st) (currentTree st)
         (Some (Str.snoc (to_text (currentString st)) c)))
      ((Str.snoc txt c, dn) :: up).
Proof.
  intros [Hsp (txt' & dn' & up' & Hfs & Hcs)] ->. injection Hfs as <- <- <-.
  split; [|eexists _, _, _; split; [done|]; cbn; by rewrite Hcs].
  exact Hsp.
Qed.

Lemma sim_close st fs :
  sim st fs →
  match frames_close fs with
  | Some fs' => ∃ st', close_branch st = Ok st' ∧ sim st' fs'
  | None => close_branch st = TypeError
  end.
Proof.
  destruct st as [h cur cs]. intros [Hsp (txt & dn & up & -> & Hcs)].
  simpl in Hsp, Hcs. subst cs.
  destruct Hsp as (n & ks & Hn & Hc & _ & Hk & Hup). simpl in Hc, Hk.
  rewrite app_nil_r in Hc. subst ks.
  pose proof (lookup_lt_Some _ _ _ Hn) as Hlt.
  set (n1 := set_dataAsString (Some txt) n).
  set (h1 := <[cur := n1]> h).
  assert (length h1 = length h) as Hlen1 by apply length_insert.
  pose proof (parseBranch_spec h1 cur n1 dn txt (S cur)) as Hpb.
  rewrite Hlen1 in Hpb.
  assert (Forall2 (holds (S cur) (length h) h1) (children n1) dn) as Hk1.
  { eapply Forall2_impl; [exact Hk|]. intros c k Hck.
    eapply holds_mono; [exact Hck|lia|lia|].
    intros i Hi. unfold h1. rewrite list_lookup_insert_ne; [done|lia]. }
  specialize (Hpb (list_lookup_insert_eq _ _ _ Hlt) eq_refl Hk1 ltac:(lia)).
  unfold close_branch. cbn [heap currentTree currentString].
  rewrite (deref_Some _ _ _ Hn), bind_ok_l. fold n1 h1.
  unfold frames_close.
  destruct (moves txt) as [|m ms] eqn:Hmv.
  { destruct Hpb as (h' & n' & -> & Hn' & Hs').
    rewrite bind_ok_l, (deref_Some _ _ _ Hn'), bind_ok_l, Hs'.
    by destruct up as [|[txt' dn'] up']. }
  cbn [forallb]. destruct (forallb parses ms) eqn:Hall; cycle 1.
  { rewrite Hpb, andb_false_r. by destruct up as [|[txt' dn'] up']. }
  destruct Hpb as (h' & cs & -> & Hlen & Hsame & Hcur & Hhold).
  rewrite bind_ok_l, (deref_Some _ _ _ Hcur), bind_ok_l.
  cbn [dataAsString set_children set_dataAsString].
  rewrite andb_true_r. destruct (parses m) eqn:Hp; cycle 1.
  { rewrite (parses_false m Hp). by destruct up as [|[txt' dn'] up']. }
  destruct (parses_true m Hp) as [d Hd]. rewrite Hd, bind_ok_l.
  cbn [parent set_children set_dataAsString n1].
  destruct up as [|[txt' dn'] up']; [by destruct Hup as [-> _]|].
  destruct Hup as (p & Hpar & np & kp & Hnp & Hcp & [Hpc Hsp] & Hkp & Hupp).
  simpl in Hcp, Hkp. rewrite Hpar.
  set (n2 := set_data d (set_children cs (set_dataAsString (Some m) n1))).
  set (h3 := <[cur := n2]> h').
  assert (∀ i, (i < length h)%nat → i ≠ cur → h3 !! i = h !! i) as Hsame3.
  { intros i Hi Hic. unfold h3. rewrite list_lookup_insert_ne by done.
    rewrite Hsame by done. unfold h1. by rewrite list_lookup_insert_ne. }
  assert (h3 !! p = Some np) as Hnp3 by (rewrite Hsame3; [done|lia|lia]).
  rewrite (deref_Some _ _ _ Hnp3), bind_ok_l.
  eexists. split; [done|]. split; [|eexists _, _, _; split; [done|]; done].
  cbn [heap currentTree].
  assert (length h3 = length h') as Hlen3 by apply length_insert.
  exists np, (kp ++ [cur]). split; [done|]. split; [by rewrite app_nil_r|].
  split; [done|]. split.
  - simpl. apply Forall2_app.
    + eapply Forall2_impl; [exact Hkp|]. intros c k Hck.
      eapply holds_mono; [exact Hck|lia|lia|].
      intros i Hi. apply Hsame3; lia.
    + constructor; [|constructor]. unfold chain.
      apply (holds_node _ _ _ _ n2); try done.
      * lia.
      * unfold h3. apply list_lookup_insert_eq. lia.
      * simpl. eapply Forall2_impl; [exact Hhold|]. intros c k Hck.
        eapply holds_mono; [exact Hck|lia|lia|].
        intros i Hi. unfold h3. rewrite list_lookup_insert_ne; [done|lia].
  - destruct up' as [|fr up'']; [done|].
    destruct Hupp as (pp & Hpp & Hspp). exists pp. split; [done|].
    eapply spine_frame; [exact Hspp|]. intros i Hi. apply Hsame3; lia.
Qed.

Lemma sim_char st fs c :
  sim st fs →
  match frames_char fs c with
  | Some fs' => ∃ st', scan_char st c = Ok st' ∧ sim st' fs'
  | None => scan_char st c = TypeError
  end.
Proof.
  intros Hs. unfold frames_char, scan_char.
  destruct (Ascii.eqb c "(").
  { destruct (sim_open st fs Hs) as (st' & Ho & Hs').
    destruct Hs as [_ (txt & dn & up & -> & _)]. eauto. }
  destruct (Ascii.eqb c ")"); [by apply sim_close|].
  pose proof Hs as [_ (txt & dn & up & -> & _)].
  eexists. split; [done|]. by eapply sim_plain.
Qed.

Lemma sim_scan s : ∀ st fs,
  sim st fs →
  match frames_scan s fs with
  | Some fs' => ∃ st', scan s st = Ok st' ∧ sim st' fs'
  | None => scan s st = TypeError
  end.
Proof.
  induction s as [|c s IH]; intros st fs Hs; [simpl; eauto|].
  cbn [frames_scan scan]. pose proof (sim_char st fs c Hs) as Hc.
  destruct (frames_char fs c) as [fs1|]; simpl.
  - destruct Hc as (st1 & -> & Hs1). rewrite bind_ok_l. by apply IH.
  - by rewrite Hc.
Qed.

Lemma sim_init :
  sim (mkScanner [mkSgfTree [] [] None (Some "")] 0%nat (Some "")) [("", [])].
Proof.
  split; [|by eexists _, _, _].
  exists (mkSgfTree [] [] None (Some "")), []. simpl.
  repeat split; constructor.
Qed.

(** What a successful parse that ends on a node without parent leaves in
    the store. *)
Lemma parseBranches_root s (h : store) r n :
  parseBranches s = Ok (h, r) → h !! r = Some n → parent n = None →
  ∃ txt dn, frames_scan s [("", [])] = Some [(txt, dn)] ∧ data n = [] ∧
            Forall2 (holds 1 (length h) h) (children n) dn.
Proof.
  unfold parseBranches.
  change (new_SgfTree [] [] None "") with (Ok (mkSgfTree [] [] None (Some ""))).
  rewrite bind_ok_l. intros Hp Hn Hpar.
  pose proof (sim_scan s _ _ sim_init) as Hs.
  destruct (frames_scan s [("", [])]) as [fs|]; cycle 1.
  { rewrite Hs in Hp. discriminate Hp. }
  destruct Hs as (st & Hst & Hsp & _). rewrite Hst, bind_ok_l in Hp.
  injection Hp as <- <-.
  destruct fs as [|[txt dn] up]; [done|].
  destruct Hsp as (n' & ks & Hn' & Hc & _ & Hk & Hup).
  rewrite Hn in Hn'. injection Hn' as <-.
  simpl in Hc, Hk. rewrite app_nil_r in Hc. subst ks.
  destruct up as [|fr up].
  - destruct Hup as [_ Hd]. exists txt, dn. repeat split; try done.
    eapply Forall2_impl; [exact Hk|]. intros c k Hck.
    eapply holds_mono; [exact Hck|lia|lia|done].
  - destruct Hup as (p & Hp & _). congruence.
Qed.

(** And conversely: when the frames close down to the root, the parse
    returns the root, with those shapes below it. *)
Lemma parseBranches_frames s txt dn :
  frames_scan s [("", [])] = Some [(txt, dn)] →
  ∃ (h : store) r n, parseBranches s = Ok (h, r) ∧ h !! r = Some n ∧
     parent n = None ∧ data n = [] ∧
     Forall2 (holds 1 (length h) h) (children n) dn.
Proof.
  intros Hf. unfold parseBranches.
  change (new_SgfTree [] [] None "") with (Ok (mkSgfTree [] [] None (Some ""))).
  rewrite bind_ok_l.
  pose proof (sim_scan s _ _ sim_init) as Hs. rewrite Hf in Hs.
  destruct Hs as ([h r cs] & -> & Hsp & _). rewrite bind_ok_l.
  destruct Hsp as (n & ks & Hn & Hc & _ & Hk & Hpar & Hd).
  simpl in *. rewrite app_nil_r in Hc. subst ks.
  exists h, r, n. repeat split; try done.
  eapply Forall2_impl; [exact Hk|]. intros c k Hck.
  eapply holds_mono; [exact Hck|lia|lia|done].
Qed.

(** ** The serializer on shapes *)

Lemma height_kid (k : Shape) kids :
  k ∈ kids → (height k ≤ max_list (height <$> kids))%nat.
Proof. intros Hk. apply max_list_elem_of_le, list_elem_of_fmap. eauto. Qed.

(** A traversal of closed children, given a result for each shape. *)
Lemma mapM_holds {B} (f : nat → store → addr → option B) (g : Shape → B)
    lo hi (h : store) fuel cs kids :
  Forall (λ k, ∀ a, holds lo hi h a k → (height k ≤ fuel)%nat →
                    f fuel h a = Some (g k)) kids →
  Forall2 (holds lo hi h) cs kids →
  (max_list (height <$> kids) ≤ fuel)%nat →
  mapM (f fuel h) cs = Some (g <$> kids).
Proof.
  intros IH Hk Hfuel. apply mapM_Some_2, Forall2_fmap_r.
  assert (Forall (λ k, height k ≤ fuel)%nat kids) as Hh.
  { apply Forall_forall. intros k Hin.
    pose proof (height_kid k kids Hin). lia. }
  clear Hfuel. induction Hk as [|c k cs kids Hck _ IHk]; [constructor|].
  inversion IH; subst. inversion Hh; subst. constructor; auto.
Qed.

Lemma toSgf_holds t : ∀ lo hi (h : store) a fuel,
  holds lo hi h a t → (height t ≤ fuel)%nat → toSgf fuel h a = Some (sgf t).
Proof.
  induction t as [text kids IH] using Shape_forall_ind.
  intros lo hi h a fuel Hh Hfuel.
  inversion Hh as [a' n text' kids' Hr Hn Hs Hp [p Hpar] Hk]; subst.
  destruct fuel as [|fuel]; [simpl in Hfuel; lia|]. simpl in Hfuel.
  cbn [toSgf]. rewrite Hn. cbn [mbind option_bind].
  rewrite (mapM_holds toSgf sgf lo hi h fuel (children n) kids); [| |done|lia].
  - cbn [mbind option_bind sgf]. rewrite Hpar, Hs.
    pose proof (Forall2_length _ _ _ Hk) as Hlen. rewrite Hlen.
    replace (notEmpty (children n)) with (notEmpty kids)
      by (by destruct (children n), kids).
    by destruct (notEmpty kids), (length kids =? 1)%nat.
  - eapply Forall_impl; [exact IH|]. intros k IHk b Hb Hfb. by eapply IHk.
Qed.

Lemma toJson_holds t : ∀ lo hi (h : store) a fuel,
  holds lo hi h a t → (height t ≤ fuel)%nat → toJson fuel h a = Some (json t).
Proof.
  induction t as [text kids IH] using Shape_forall_ind.
  intros lo hi h a fuel Hh Hfuel.
  inversion Hh as [a' n text' kids' Hr Hn Hs Hp Hpar Hk]; subst.
  destruct fuel as [|fuel]; [simpl in Hfuel; lia|]. simpl in Hfuel.
  cbn [toJson]. rewrite Hn. cbn [mbind option_bind].
  rewrite (mapM_holds toJson json lo hi h fuel (children n) kids); [| |done|lia].
  - cbn [mbind option_bind json]. unfold props. by rewrite Hp.
  - eapply Forall_impl; [exact IH|]. intros k IHk b Hb Hfb. by eapply IHk.
Qed.

(** The two projections of a root whose children are closed. *)
Lemma root_projections lo hi (h : store) r n dn :
  h !! r = Some n → parent n = None → data n = [] →
  Forall2 (holds lo hi h) (children n) dn →
  ∀ fuel, (max_list (height <$> dn) < fuel)%nat →
    toSgf fuel h r = Some (sgf_root dn) ∧
    toJson fuel h r = Some (Json [] (json <$> dn)).
Proof.
  intros Hn Hpar Hd Hk [|fuel] Hfuel; [lia|]. split.
  - cbn [toSgf]. rewrite Hn. cbn [mbind option_bind].
    rewrite (mapM_holds toSgf sgf lo hi h fuel (children n) dn); [| |done|lia].
    + cbn [mbind option_bind]. rewrite Hpar. unfold sgf_root.
      by rewrite <- list_fmap_compose.
    + apply Forall_forall. intros k _ b Hb Hfb. by eapply toSgf_holds.
  - cbn [toJson]. rewrite Hn. cbn [mbind option_bind].
    rewrite (mapM_holds toJson json lo hi h fuel (children n) dn); [| |done|lia].
    + cbn [mbind option_bind]. by rewrite Hd.
    + apply Forall_forall. intros k _ b Hb Hfb. by eapply toJson_holds.
Qed.

(** ** Facts on strings *)

Lemma all_chars_app p s t :
  all_chars p (s +:+ t) = all_chars p s && all_chars p t.
Proof.
  induction s as [|c s IH]; [done|].
  rewrite append_cons. simpl. by rewrite IH, andb_assoc.
Qed.

Lemma all_chars_impl (p q : ascii → bool) s :
  (∀ c, p c = true → q c = true) → all_chars p s = true → all_chars q s = true.
Proof.
  intros Hpq. induction s as [|c s IH]; [done|]. simpl.
  intros [Hc Hs]%andb_true_iff. by rewrite (Hpq c Hc), IH.
Qed.

Lemma all_chars_includes p c s :
  p c = false → all_chars p s = true → Str.includes c s = false.
Proof.
  intros Hc. induction s as [|x s IH]; [done|]. simpl.
  intros [Hx Hs]%andb_true_iff. rewrite (IH Hs), orb_false_r.
  destruct (Ascii.eqb_spec x c); [congruence|done].
Qed.

Lemma split_all p c s :
  all_chars p s = true → Forall (λ x, all_chars p x = true) (Str.split c s).
Proof.
  induction s as [|x s IH]; [by repeat constructor|]. simpl.
  intros [Hx Hs]%andb_true_iff. specialize (IH Hs).
  destruct (Ascii.eqb x c); [by constructor|].
  destruct (Str.split c s) as [|y ys]; [by repeat constructor; simpl; rewrite Hx|].
  inversion IH; subst. constructor; [|done]. simpl. by rewrite Hx.
Qed.

Lemma split_no_sep c s :
  Forall (λ x, Str.includes c x = false) (Str.split c s).
Proof.
  induction s as [|x s IH]; [by repeat constructor|]. simpl.
  destruct (Ascii.eqb x c) eqn:E; [by constructor|].
  destruct (Str.split c s) as [|y ys];
    [by repeat constructor; simpl; rewrite E|].
  inversion IH; subst. constructor; [|done]. simpl. by rewrite E.
Qed.

Lemma split_plain c m :
  Str.includes c m = false → Str.split c m = [m].
Proof.
  induction m as [|x m IH]; [done|]. simpl.
  intros [Hx Hm]%orb_false_iff. by rewrite Hx, (IH Hm).
Qed.

Lemma split_plain_sep c m rest :
  Str.includes c m = false →
  Str.split c (m +:+ String c rest) = m :: Str.split c rest.
Proof.
  induction m as [|x m IH]; intros H.
  - rewrite append_empty_l. simpl. by rewrite Ascii.eqb_refl.
  - simpl in H. apply orb_false_iff in H as [Hx Hm].
    rewrite append_cons. simpl. by rewrite Hx, (IH Hm).
Qed.

(** ** The shapes that a scan closes are well formed *)

Lemma wf_move_inv m :
  wf_move m = true →
  Str.nonempty m = true ∧ all_chars move_char m = true ∧ parses m = true.
Proof. unfold wf_move. by intros [[? ?]%andb_true_iff ?]%andb_true_iff. Qed.

Lemma moves_wf txt :
  all_chars text_char txt = true → forallb parses (moves txt) = true →
  forallb wf_move (moves txt) = true.
Proof.
  intros Htxt Hp. apply forallb_forall. intros m Hm.
  pose proof (proj1 (forallb_forall _ _) Hp m Hm) as Hpm.
  unfold moves in Hm. apply List.filter_In in Hm as [Hin Hne].
  apply list_elem_of_In in Hin.
  pose proof (proj1 (Forall_forall _ _) (split_all text_char ";" txt Htxt) m Hin)
    as Hall.
  pose proof (proj1 (Forall_forall _ _) (split_no_sep ";" txt) m Hin) as Hsep.
  unfold wf_move. rewrite Hne, Hpm, andb_true_r. simpl.
  clear -Hall Hsep. induction m as [|c m IH]; [done|]. simpl in *.
  apply andb_true_iff in Hall as [Hc Hm].
  apply orb_false_iff in Hsep as [Hs Hm'].
  unfold move_char at 1. by rewrite Hs, Hc, IH.
Qed.

Lemma wf_chain_kids ms dn :
  forallb wf_move ms = true → forallb wf_shape dn = true →
  forallb wf_shape (chain_kids ms dn) = true.
Proof.
  induction ms as [|m ms IH]; intros Hms Hdn; [done|]. simpl in *.
  apply andb_true_iff in Hms as [Hm Hms]. by rewrite Hm, IH.
Qed.

Lemma wf_chain ms dn :
  ms ≠ [] → forallb wf_move ms = true → forallb wf_shape dn = true →
  wf_shape (chain ms dn) = true.
Proof.
  destruct ms as [|m ms]; [done|]. intros _ Hms Hdn. simpl in *.
  apply andb_true_iff in Hms as [Hm Hms]. by rewrite Hm, wf_chain_kids.
Qed.

Lemma forallb_app_1 {A} (p : A → bool) xs x :
  forallb p xs = true → p x = true → forallb p (xs ++ [x]) = true.
Proof. intros Hxs Hx. rewrite forallb_app. simpl. by rewrite Hxs, Hx. Qed.

Lemma wf_frames_char fs c fs' :
  wf_frames fs → clean_char c = true → frames_char fs c = Some fs' →
  wf_frames fs'.
Proof.
  intros Hwf Hc. unfold frames_char.
  destruct (Ascii.eqb c "(") eqn:Eo.
  { destruct fs; [done|]. intros [= <-]. by constructor. }
  destruct (Ascii.eqb c ")") eqn:Ec.
  - unfold frames_close.
    destruct fs as [|[txt dn] [|[txt' dn'] up]]; [done|done|].
    destruct (moves txt) as [|m ms] eqn:Hmv; [done|].
    destruct (forallb parses (m :: ms)) eqn:Hall; [|done]. intros [= <-].
    inversion Hwf as [|? ? [Htxt Hdn] Hwf']; subst.
    inversion Hwf' as [|? ? [Htxt' Hdn'] Hwf'']; subst.
    constructor; [|done]. simpl in *. split; [done|].
    apply forallb_app_1; [done|]. apply (wf_chain (m :: ms)); [done| |done].
    rewrite <- Hmv. apply moves_wf; [done|]. rewrite Hmv. exact Hall.
  - destruct fs as [|[txt dn] up]; [done|]. intros [= <-].
    inversion Hwf as [|? ? [Htxt Hdn] Hwf']; subst.
    constructor; [|done]. simpl in *. split; [|done].
    unfold Str.snoc. rewrite all_chars_app, Htxt. simpl.
    unfold text_char. by rewrite Eo, Ec, Hc.
Qed.

Lemma wf_frames_scan s : ∀ fs fs',
  wf_frames fs → all_chars clean_char s = true →
  frames_scan s fs = Some fs' → wf_frames fs'.
Proof.
  induction s as [|c s IH]; intros fs fs' Hwf Hs; [by intros [= <-]|].
  simpl in Hs. apply andb_true_iff in Hs as [Hc Hs]. cbn [frames_scan].
  destruct (frames_char fs c) as [fs1|] eqn:E; [|done]. simpl.
  apply IH; [|done]. by eapply wf_frames_char.
Qed.

(** ** Moves of an accumulated text *)

Lemma moves_sep txt : moves (String ";" txt) = moves txt.
Proof. reflexivity. Qed.

Lemma acc_of_cons m ms : acc_of (m :: ms) = String ";" (m +:+ acc_of ms).
Proof. reflexivity. Qed.

Lemma acc_of_snoc ms m : acc_of (ms ++ [m]) = acc_of ms +:+ String ";" m.
Proof.
  induction ms as [|m' ms IH].
  - simpl. rewrite acc_of_cons. unfold acc_of. simpl. by rewrite append_empty_r.
  - simpl. rewrite !acc_of_cons, IH, append_cons. by rewrite append_assoc.
Qed.

Lemma moves_acc_of ms :
  forallb wf_move ms = true → moves (acc_of ms) = ms.
Proof.
  induction ms as [|m ms IH]; [done|]. simpl.
  intros [Hm Hms]%andb_true_iff. rewrite acc_of_cons, moves_sep.
  apply wf_move_inv in Hm as (Hne & Hall & _).
  assert (Str.includes ";" m = false) as Hsep
    by (by eapply all_chars_includes; [|exact Hall]).
  specialize (IH Hms). unfold moves in *.
  destruct ms as [|m' ms'].
  - unfold acc_of. simpl. rewrite append_empty_r, (split_plain _ _ Hsep).
    simpl. by rewrite Hne.
  - rewrite acc_of_cons in *. rewrite (split_plain_sep _ _ _ Hsep).
    simpl. rewrite Hne. f_equal. exact IH.
Qed.

Lemma chain_prepend pm text kids :
  chain (pm ++ [text]) kids = prepend pm (Node text kids).
Proof.
  induction pm as [|m pm IH]; [done|]. simpl. f_equal.
  destruct pm as [|m' pm']; [done|]. simpl in *. by rewrite <- IH.
Qed.

Lemma prepend_snoc pm text k :
  prepend (pm ++ [text]) k = prepend pm (Node text [k]).
Proof. unfold prepend. by rewrite foldr_app. Qed.

(** ** Scanning a serialization again *)

Lemma frames_scan_plain u : ∀ acc d up more,
  all_chars text_char u = true →
  frames_scan (u +:+ more) ((acc, d) :: up) =
  frames_scan more ((acc +:+ u, d) :: up).
Proof.
  induction u as [|c u IH]; intros acc d up more Hu.
  - by rewrite append_empty_l, append_empty_r.
  - simpl in Hu. apply andb_true_iff in Hu as [Hc Hu].
    rewrite append_cons. cbn [frames_scan]. unfold frames_char.
    unfold text_char in Hc.
    apply andb_true_iff in Hc as [[Ho Hcl]%andb_true_iff _].
    apply negb_true_iff in Ho, Hcl. rewrite Ho, Hcl. simpl.
    rewrite (IH _ _ _ _ Hu). unfold Str.snoc. by rewrite append_assoc.
Qed.

Lemma frames_close_acc ms d txt dn up :
  ms ≠ [] → forallb wf_move ms = true →
  frames_close ((acc_of ms, d) :: (txt, dn) :: up) =
    Some ((txt, dn ++ [chain ms d]) :: up).
Proof.
  intros Hne Hwf. unfold frames_close. rewrite (moves_acc_of ms Hwf).
  assert (forallb parses ms = true) as Hp.
  { apply forallb_forall. intros m Hm.
    by apply (proj1 (forallb_forall _ _) Hwf), wf_move_inv in Hm as (_ & _ & ?). }
  destruct ms as [|m ms]; [done|]. by rewrite Hp.
Qed.

Lemma wf_move_text m : wf_move m = true → all_chars text_char m = true.
Proof.
  intros (_ & Hall & _)%wf_move_inv.
  eapply all_chars_impl; [|exact Hall].
  unfold move_char. by intros c [_ ?]%andb_true_iff.
Qed.

Lemma sgf_leaf text : sgf (Node text []) = text.
Proof. reflexivity. Qed.

Lemma sgf_one text k : sgf (Node text [k]) = text +:+ String ";" (sgf k).
Proof. reflexivity. Qed.

Lemma foldl_groups acc xs :
  foldl (λ p c, p +:+ "(;" +:+ c +:+ ")") acc xs =
  acc +:+ Str.concat ((λ c, "(;" +:+ c +:+ ")") <$> xs).
Proof.
  revert acc. induction xs as [|x xs IH]; intros acc; simpl.
  - by rewrite append_empty_r.
  - by rewrite IH, append_assoc.
Qed.

Lemma sgf_many text k1 k2 ks :
  sgf (Node text (k1 :: k2 :: ks)) =
  text +:+ Str.concat ((λ t, "(;" +:+ sgf t +:+ ")") <$> (k1 :: k2 :: ks)).
Proof.
  cbn [sgf notEmpty length Nat.eqb]. rewrite foldl_groups, append_empty_l.
  by rewrite <- list_fmap_compose.
Qed.

Lemma group_app c more :
  ("(;" +:+ c +:+ ")") +:+ more = String "(" (String ";" (c +:+ String ")" more)).
Proof. by rewrite !append_assoc. Qed.

Lemma frames_scan_open s fr up :
  frames_scan (String "(" s) (fr :: up) =
  frames_scan s ((acc_of [], []) :: fr :: up).
Proof. reflexivity. Qed.

Lemma frames_scan_close s fs :
  frames_scan (String ")" s) fs = frames_close fs ≫= frames_scan s.
Proof. reflexivity. Qed.

Lemma frames_scan_comma s txt d up :
  frames_scan (String "," s) ((txt, d) :: up) =
  frames_scan s ((Str.snoc txt ",", d) :: up).
Proof. reflexivity. Qed.

Lemma rescan_list kids :
  Forall rescans kids → forallb wf_shape kids = true →
  ∀ acc d up more,
    frames_scan (Str.concat ((λ t, "(;" +:+ sgf t +:+ ")") <$> kids) +:+ more)
                ((acc, d) :: up) =
    frames_scan more ((acc, d ++ kids) :: up).
Proof.
  induction kids as [|k kids IH]; intros Hall Hwf acc d up more.
  - by rewrite app_nil_r.
  - inversion Hall as [|? ? Hk Hkids]; subst. simpl in Hwf.
    apply andb_true_iff in Hwf as [Hwk Hwks].
    cbn [fmap list_fmap Str.concat]. rewrite append_assoc, group_app.
    rewrite frames_scan_open, (Hk Hwk [] acc d up _ eq_refl).
    cbn [prepend foldr]. rewrite (IH Hkids Hwks). by rewrite <- app_assoc.
Qed.

Lemma rescan_shape t : rescans t.
Proof.
  induction t as [text kids IH] using Shape_forall_ind.
  intros Hwf pm txt dn up more Hpm. simpl in Hwf.
  apply andb_true_iff in Hwf as [Hm Hkids].
  assert (forallb wf_move (pm ++ [text]) = true) as Hpm'
    by (by apply forallb_app_1).
  assert (all_chars text_char (String ";" text) = true) as Hplain
    by (simpl; by rewrite wf_move_text).
  destruct kids as [|k1 [|k2 ks]].
  - rewrite sgf_leaf, <- append_cons, (frames_scan_plain _ _ _ _ _ Hplain).
    rewrite <- acc_of_snoc, frames_scan_close.
    rewrite frames_close_acc by (done || by destruct pm).
    cbn [mbind option_bind]. by rewrite chain_prepend.
  - rewrite sgf_one, append_assoc, (append_cons ";" (sgf k1)).
    rewrite <- (append_cons ";" text), (frames_scan_plain _ _ _ _ _ Hplain).
    rewrite <- acc_of_snoc. inversion IH as [|? ? Hk _]; subst.
    simpl in Hkids. apply andb_true_iff in Hkids as [Hwk _].
    rewrite (Hk Hwk _ _ _ _ _ Hpm'). by rewrite prepend_snoc.
  - rewrite sgf_many, append_assoc, <- append_cons.
    rewrite (frames_scan_plain _ _ _ _ _ Hplain), <- acc_of_snoc.
    rewrite (rescan_list _ IH Hkids), frames_scan_close.
    rewrite frames_close_acc by (done || by destruct pm).
    cbn [mbind option_bind]. by rewrite chain_prepend.
Qed.

Lemma rescan_group k acc d up more :
  wf_shape k = true →
  frames_scan (("(;" +:+ sgf k +:+ ")") +:+ more) ((acc, d) :: up) =
  frames_scan more ((acc, d ++ [k]) :: up).
Proof.
  intros Hk. rewrite group_app, frames_scan_open.
  by rewrite (rescan_shape k Hk [] acc d up more eq_refl).
Qed.

Lemma rescan_root dn : ∀ txt d,
  forallb wf_shape dn = true →
  ∃ txt', frames_scan (sgf_root dn) [(txt, d)] = Some [(txt', d ++ dn)].
Proof.
  unfold sgf_root.
  induction dn as [|k dn IH]; intros txt d Hwf.
  - exists txt. by rewrite app_nil_r.
  - simpl in Hwf. apply andb_true_iff in Hwf as [Hk Hdn].
    destruct dn as [|k' dn'].
    + exists txt. cbn [fmap list_fmap Str.join].
      rewrite <- (append_empty_r (_ +:+ _ +:+ _)).
      by rewrite (rescan_group k txt d [] "" Hk).
    + destruct (IH (Str.snoc txt ",") (d ++ [k]) Hdn) as [txt' Hscan].
      exists txt'. rewrite fmap_cons in Hscan. rewrite !fmap_cons.
      change (Str.join "," (?x :: ?y :: ?l))
        with (x +:+ "," +:+ Str.join "," (y :: l)).
      rewrite (rescan_group k txt d [] _ Hk).
      rewrite append_cons, append_empty_l, frames_scan_comma, Hscan.
      by rewrite <- app_assoc.
Qed.

(** ** Cleaning a text up *)

Lemma str_filter_all (p q : ascii → bool) s :
  (∀ c, q c = true → p c = true) → all_chars p (Str.filter q s) = true.
Proof.
  intros Hqp. induction s as [|c s IH]; [done|]. simpl.
  destruct (q c) eqn:E; [|done]. simpl. by rewrite (Hqp c E).
Qed.

Lemma str_filter_keeps_all (p q : ascii → bool) s :
  all_chars p s = true → all_chars p (Str.filter q s) = true.
Proof.
  induction s as [|c s IH]; [done|]. simpl.
  intros [Hc Hs]%andb_true_iff. destruct (q c); [|by apply IH].
  simpl. by rewrite Hc, IH.
Qed.

Lemma str_filter_id (q : ascii → bool) s :
  all_chars q s = true → Str.filter q s = s.
Proof.
  induction s as [|c s IH]; [done|]. simpl.
  intros [Hc Hs]%andb_true_iff. by rewrite Hc, IH.
Qed.

Lemma all_chars_and (p q : ascii → bool) s :
  all_chars p s = true → all_chars q s = true →
  all_chars (λ c, p c && q c) s = true.
Proof.
  induction s as [|c s IH]; [done|]. simpl.
  intros [Hc Hs]%andb_true_iff [Hc' Hs']%andb_true_iff.
  by rewrite Hc, Hc', IH.
Qed.

Lemma sgfCleanup_clean s : all_chars clean_char (sgfCleanup s) = true.
Proof.
  unfold sgfCleanup, Str.remove_all. apply all_chars_and.
  - apply str_filter_keeps_all. by apply str_filter_all.
  - by apply str_filter_all.
Qed.

Lemma str_rev_acc_app s acc : Str.rev_acc s acc = Str.rev s +:+ acc.
Proof.
  unfold Str.rev. revert acc. induction s as [|c s IH]; intros acc; [done|].
  simpl. rewrite (IH (String c acc)), (IH (String c "")).
  by rewrite append_assoc.
Qed.

Lemma str_rev_cons c s : Str.rev (String c s) = Str.rev s +:+ String c "".
Proof. unfold Str.rev at 1. simpl. apply str_rev_acc_app. Qed.

Lemma str_rev_snoc s c : Str.rev (s +:+ String c "") = String c (Str.rev s).
Proof.
  induction s as [|x s IH]; [done|].
  by rewrite append_cons, !str_rev_cons, IH.
Qed.

Lemma str_rev_involutive s : Str.rev (Str.rev s) = s.
Proof.
  induction s as [|c s IH]; [done|]. by rewrite str_rev_cons, str_rev_snoc, IH.
Qed.

Lemma trim_id a u b :
  Str.is_white a = false → Str.is_white b = false →
  Str.trim (String a (u +:+ String b "")) = String a (u +:+ String b "").
Proof.
  intros Ha Hb. unfold Str.trim. cbn [Str.drop_while]. rewrite Ha.
  rewrite str_rev_cons, str_rev_snoc, append_cons. cbn [Str.drop_while]. rewrite Hb.
  by rewrite str_rev_cons, str_rev_snoc, str_rev_involutive.
Qed.

Lemma sgfCleanup_id a u b :
  Str.is_white a = false → Str.is_white b = false →
  all_chars clean_char (String a (u +:+ String b "")) = true →
  sgfCleanup (String a (u +:+ String b "")) = String a (u +:+ String b "").
Proof.
  intros Ha Hb Hall. unfold sgfCleanup. rewrite (trim_id a u b Ha Hb).
  unfold Str.remove_all. rewrite !str_filter_id; [done| |].
  - eapply all_chars_impl; [|exact Hall].
    unfold clean_char. by intros c [? ?]%andb_true_iff.
  - rewrite str_filter_id.
    + eapply all_chars_impl; [|exact Hall].
      unfold clean_char. by intros c [? ?]%andb_true_iff.
    + eapply all_chars_impl; [|exact Hall].
      unfold clean_char. by intros c [? ?]%andb_true_iff.
Qed.

(** ** The characters of a serialization *)

Lemma all_chars_concat p xs :
  Forall (λ x, all_chars p x = true) xs → all_chars p (Str.concat xs) = true.
Proof.
  induction 1 as [|x xs Hx _ IH]; [done|]. simpl.
  by rewrite all_chars_app, Hx, IH.
Qed.

Lemma wf_move_clean m : wf_move m = true → all_chars clean_char m = true.
Proof.
  intros Hm. eapply all_chars_impl; [|exact (wf_move_text m Hm)].
  unfold text_char. by intros c [_ ?]%andb_true_iff.
Qed.

Lemma group_clean s :
  all_chars clean_char s = true →
  all_chars clean_char ("(;" +:+ s +:+ ")") = true.
Proof. intros Hs. rewrite !all_chars_app, Hs. done. Qed.

Lemma sgf_clean t : wf_shape t = true → all_chars clean_char (sgf t) = true.
Proof.
  induction t as [text kids IH] using Shape_forall_ind.
  intros Hwf. simpl in Hwf. apply andb_true_iff in Hwf as [Hm Hkids].
  pose proof (wf_move_clean text Hm) as Htext.
  assert (Forall (λ k, all_chars clean_char (sgf k) = true) kids) as Hk.
  { apply Forall_forall. intros k Hin.
    apply (proj1 (Forall_forall _ _) IH k Hin).
    by apply (proj1 (forallb_forall _ _) Hkids), list_elem_of_In. }
  destruct kids as [|k1 [|k2 ks]].
  - done.
  - rewrite sgf_one, all_chars_app, Htext. simpl. by inversion Hk.
  - rewrite sgf_many, all_chars_app, Htext, andb_true_l.
    apply all_chars_concat, Forall_fmap.
    eapply Forall_impl; [exact Hk|]. intros k. apply group_clean.
Qed.

Lemma join_clean xs :
  Forall (λ x, all_chars clean_char x = true) xs →
  all_chars clean_char (Str.join "," xs) = true.
Proof.
  induction 1 as [|x xs Hx Hxs IH]; [done|].
  destruct xs as [|y ys]; [done|].
  change (Str.join "," (x :: y :: ys))
    with (x +:+ "," +:+ Str.join "," (y :: ys)).
  by rewrite !all_chars_app, Hx, IH.
Qed.

Lemma sgf_root_clean dn :
  forallb wf_shape dn = true → all_chars clean_char (sgf_root dn) = true.
Proof.
  intros Hwf. apply join_clean, Forall_fmap, Forall_forall. intros k Hin.
  apply group_clean, sgf_clean.
  by apply (proj1 (forallb_forall _ _) Hwf), list_elem_of_In.
Qed.

Lemma sgf_root_form dn :
  dn ≠ [] → ∃ u, sgf_root dn = String "(" (u +:+ String ")" "").
Proof.
  unfold sgf_root. induction dn as [|k dn IH]; [done|]. intros _.
  destruct dn as [|k' dn'].
  - exists (String ";" (sgf k)). reflexivity.
  - destruct (IH ltac:(done)) as [u Hu]. rewrite fmap_cons.
    change (Str.join "," (?x :: ?l))
      with (x +:+ "," +:+ Str.join "," ((λ t, "(;" +:+ sgf t +:+ ")") <$> k' :: dn')).
    rewrite Hu. eexists (String ";" (sgf k) +:+ ")," +:+ String "(" u).
    by rewrite !append_cons, !append_assoc.
Qed.

Lemma sgfCleanup_sgf_root dn :
  forallb wf_shape dn = true → sgfCleanup (sgf_root dn) = sgf_root dn.
Proof.
  intros Hwf. destruct dn as [|k dn]; [done|].
  destruct (sgf_root_form (k :: dn)) as [u Hu]; [done|].
  pose proof (sgf_root_clean _ Hwf) as Hclean. rewrite Hu in *.
  by apply sgfCleanup_id.
Qed.

(** ** Round trip *)

(** C1, as the code has it: when [parseSgf] returns and the node it returns
    is the root, the serialization of the tree parses again, the parse
    returns a root again, and the two trees have the same structure and the
    same properties: their [toJson] values are equal. (Every bound on the
    depth from some bound on gives these projections.) *)
Theorem reparse_stable (s : string) (h : store) (r : addr) (n : SgfTree) :
  parseSgf s = Ok (h, r) → h !! r = Some n → parent n = None →
  ∃ text h' r' n' j fuel0,
    parseSgf text = Ok (h', r') ∧ h' !! r' = Some n' ∧ parent n' = None ∧
    ∀ fuel, (fuel0 ≤ fuel)%nat →
      toSgf fuel h r = Some text ∧
      toJson fuel h r = Some j ∧
      toJson fuel h' r' = Some j.
Proof.
  unfold parseSgf. intros Hparse Hn Hpar.
  destruct (parseBranches_root _ h r n Hparse Hn Hpar)
    as (txt & dn & Hscan & Hd & Hk).
  assert (forallb wf_shape dn = true) as Hwf.
  { assert (wf_frames [(txt, dn)]) as Hfs.
    { eapply wf_frames_scan; [|apply sgfCleanup_clean|exact Hscan].
      by repeat constructor. }
    by inversion Hfs as [|? ? [_ ?] _]. }
  destruct (rescan_root dn "" [] Hwf) as [txt' Hrescan].
  destruct (parseBranches_frames _ _ _ Hrescan)
    as (h' & r' & n' & Hparse' & Hn' & Hpar' & Hd' & Hk').
  exists (sgf_root dn), h', r', n', (Json [] (json <$> dn)),
         (S (max_list (height <$> dn))).
  rewrite sgfCleanup_sgf_root by done.
  split; [done|]. split; [done|]. split; [done|]. intros fuel Hfuel.
  destruct (root_projections 1 (length h) h r n dn Hn Hpar Hd Hk fuel)
    as [Hsgf Hjson]; [lia|].
  destruct (root_projections 1 (length h') h' r' n' dn Hn' Hpar' Hd' Hk' fuel)
    as [_ Hjson']; [lia|].
  done.
Qed.

Lemma reparse_stable_witness :
  let s := "(;B[aa];W[bb]" +:+ String "010" "(;B[cc])(;B[dd];W[ee]))" in
  let h := [mkSgfTree [] [1%nat] None (Some "");
            mkSgfTree [("B", PStr "aa")] [5%nat] (Some 0%nat) (Some "B[aa]");
            mkSgfTree [("B", PStr "cc")] [] (Some 1%nat) (Some "B[cc]");
            mkSgfTree [("B", PStr "dd")] [4%nat] (Some 1%nat) (Some "B[dd]");
            mkSgfTree [("W", PStr "ee")] [] (Some 3%nat) (Some "W[ee]");
            mkSgfTree [("W", PStr "bb")] [2%nat; 3%nat] (Some 1%nat) (Some "W[bb]")] in
  let n := mkSgfTree [] [1%nat] None (Some "") in
  parseSgf s = Ok (h, 0%nat) ∧ h !! 0%nat = Some n ∧ parent n = None ∧
  ∃ text h' r' n' j fuel0,
    parseSgf text = Ok (h', r') ∧ h' !! r' = Some n' ∧ parent n' = None ∧
    ∀ fuel, (fuel0 ≤ fuel)%nat →
      toSgf fuel h 0 = Some text ∧
      toJson fuel h 0 = Some j ∧
      toJson fuel h' r' = Some j.
Proof.
  intros s h n.
  assert (parseSgf s = Ok (h, 0%nat)) as Hparse by (vm_compute; reflexivity).
  split; [exact Hparse|]. split; [reflexivity|]. split; [reflexivity|].
  exact (reparse_stable s h 0%nat n Hparse eq_refl eq_refl).
Defined.

(** C1, as stated, fails: the text [(;C[(])] follows the grammar of the
    input, with the one property [C] whose value is an opening parenthesis.
    The scanner takes that parenthesis for the start of a branch and
    returns the node of the outer branch instead of the root; its
    serialization is [;C[;]], which parses to a root without children,
    whereas the node returned first has one child. (With the value [()],
    whose parentheses are balanced, the scanner closes a branch without
    moves and the parse raises.) *)
Lemma reparse_fails_on_parenthesis_in_value :
  let g := Tree [[mkProperty "C" ["("]]] [] in
  let g' := Tree [[mkProperty "C" ["()"]]] [] in
  conforms g = true ∧ render_tree g = "(;C[(])" ∧
  (¬ ∃ h r fuel text h' r' j,
      parseSgf "(;C[(])" = Ok (h, r) ∧
      toSgf fuel h r = Some text ∧
      parseSgf text = Ok (h', r') ∧
      toJson fuel h r = Some j ∧
      toJson fuel h' r' = Some j) ∧
  conforms g' = true ∧ render_tree g' = "(;C[()])" ∧
  parseSgf "(;C[()])" = TypeError.
Proof.
  intros g g'. split; [reflexivity|]. split; [reflexivity|].
  split; [|by vm_compute].
  intros (h & r & fuel & text & h' & r' & j & Hp & Hs & Hp' & Hj & Hj').
  vm_compute in Hp. injection Hp as <- <-.
  destruct fuel as [|[|fuel]]; [discriminate Hs|discriminate Hs|].
  cbn in Hs. injection Hs as <-.
  vm_compute in Hp'. injection Hp' as <- <-.
  cbn in Hj, Hj'. congruence.
Qed.

Example reparse_collection :
  toSgf 2 collection_store 0 = Some "(;B[aa]),(;W[bb])" ∧
  parseSgf "(;B[aa]),(;W[bb])" =
    Ok ([mkSgfTree [] [1%nat; 2%nat] None (Some ",");
         mkSgfTree [("B", PStr "aa")] [] (Some 0%nat) (Some "B[aa]");
         mkSgfTree [("W", PStr "bb")] [] (Some 0%nat) (Some "W[bb]")], 0%nat).
Proof. split; vm_compute; reflexivity. Qed.

(** The parse returns the root exactly when the frames of the text close
    down to the frame of the root. *)
Lemma parseSgf_returns_root (s : string) :
  (∃ (h : store) r n, parseSgf s = Ok (h, r) ∧ h !! r = Some n ∧
                      parent n = None) ↔
  ∃ txt dn, frames_scan (sgfCleanup s) [("", [])] = Some [(txt, dn)].
Proof.
  split.
  - intros (h & r & n & Hp & Hn & Hpar).
    destruct (parseBranches_root _ h r n Hp Hn Hpar) as (txt & dn & ? & _).
    eauto.
  - intros (txt & dn & Hscan).
    destruct (parseBranches_frames _ _ _ Hscan) as (h & r & n & ? & ? & ? & _).
    eauto 10.
Qed.

(** ** Texts of the grammar *)

Lemma GameTree_forall_ind (P : GameTree → Prop) :
  (∀ nodes subs, Forall P subs → P (Tree nodes subs)) → ∀ t, P t.
Proof.
  intros step. fix self 1. intros [nodes subs]. apply step.
  induction subs as [|g subs IH]; constructor; [apply self|exact IH].
Qed.

Lemma acc_of_text ms :
  forallb wf_move ms = true → all_chars text_char (acc_of ms) = true.
Proof.
  induction ms as [|m ms IH]; [done|]. intros Hwf. simpl in Hwf.
  apply andb_true_iff in Hwf as [Hm Hms].
  rewrite acc_of_cons. cbn [all_chars]. rewrite all_chars_app.
  by rewrite (wf_move_text m Hm), (IH Hms).
Qed.

Lemma render_tree_eq nodes subs more :
  render_tree (Tree nodes subs) +:+ more =
  String "(" (acc_of (node_texts nodes) +:+
              Str.concat (render_tree <$> subs) +:+ String ")" more).
Proof.
  cbn [render_tree]. unfold acc_of, node_texts.
  rewrite <- list_fmap_compose, !append_assoc. reflexivity.
Qed.

(** The scanner closes the text of a plain game tree into its shape. *)
Lemma frames_scan_tree g :
  plain_tree g = true → ∀ txt dn up more,
  frames_scan (render_tree g +:+ more) ((txt, dn) :: up) =
  frames_scan more ((txt, dn ++ [shape_of g]) :: up).
Proof.
  induction g as [nodes subs IH] using GameTree_forall_ind.
  intros Hg txt dn up more. simpl in Hg.
  apply andb_true_iff in Hg as [[Hne Hnodes]%andb_true_iff Hsubs].
  rewrite render_tree_eq, frames_scan_open.
  rewrite (frames_scan_plain _ _ _ _ _ (acc_of_text _ Hnodes)).
  rewrite append_empty_l.
  assert (∀ d more',
    frames_scan (Str.concat (render_tree <$> subs) +:+ more')
                ((acc_of (node_texts nodes), d) :: (txt, dn) :: up) =
    frames_scan more'
                ((acc_of (node_texts nodes), d ++ (shape_of <$> subs))
                 :: (txt, dn) :: up)) as Hlist.
  { clear -IH Hsubs. induction subs as [|g subs IHs]; intros d more'.
    - by rewrite app_nil_r.
    - inversion IH as [|? ? Hg Hrest]; subst. simpl in Hsubs.
      apply andb_true_iff in Hsubs as [Hpg Hps].
      cbn [fmap list_fmap Str.concat]. rewrite append_assoc.
      rewrite (Hg Hpg), (IHs Hrest Hps). by rewrite <- app_assoc. }
  rewrite Hlist, frames_scan_close, frames_close_acc; [done| |done].
  unfold node_texts. by destruct nodes.
Qed.

Lemma frames_scan_trees gs :
  forallb plain_tree gs = true → ∀ txt dn up more,
  frames_scan (Str.concat (render_tree <$> gs) +:+ more) ((txt, dn) :: up) =
  frames_scan more ((txt, dn ++ (shape_of <$> gs)) :: up).
Proof.
  induction gs as [|g gs IH]; intros Hgs txt dn up more.
  - by rewrite app_nil_r.
  - simpl in Hgs. apply andb_true_iff in Hgs as [Hg Hgs].
    cbn [fmap list_fmap Str.concat]. rewrite append_assoc.
    rewrite (frames_scan_tree g Hg), (IH Hgs). by rewrite <- app_assoc.
Qed.

(** X22: a text that, once cleaned up, is a sequence of plain game trees
    parses to a root, with the shapes of the game trees below it. *)
Lemma grammar_text_parses (s : string) (gs : list GameTree) :
  sgfCleanup s = Str.concat (render_tree <$> gs) →
  forallb plain_tree gs = true →
  ∃ (h : store) r n,
    parseSgf s = Ok (h, r) ∧ h !! r = Some n ∧ parent n = None ∧
    ∀ fuel, (max_list (height <$> (shape_of <$> gs)) < fuel)%nat →
      toJson fuel h r = Some (Json [] (json <$> (shape_of <$> gs))).
Proof.
  intros Hs Hgs. unfold parseSgf. rewrite Hs.
  pose proof (frames_scan_trees gs Hgs "" [] [] "") as Hscan.
  rewrite append_empty_r in Hscan. simpl in Hscan.
  destruct (parseBranches_frames _ _ _ Hscan)
    as (h & r & n & Hparse & Hn & Hpar & Hd & Hk).
  exists h, r, n. repeat split; try done. intros fuel Hfuel.
  by destruct (root_projections 1 (length h) h r n _ Hn Hpar Hd Hk fuel Hfuel).
Qed.

Example plain_trees_example :
  let gs := [Tree [[mkProperty "B" ["aa"]]; [mkProperty "W" ["bb"]]]
                  [Tree [[mkProperty "B" ["cc"]]] [];
                   Tree [[mkProperty "AB" ["dd"]; mkProperty "C" ["x y"]]] []]] in
  Str.concat (render_tree <$> gs) = "(;B[aa];W[bb](;B[cc])(;AB[dd]C[x y]))" ∧
  forallb plain_tree gs = true.
Proof. split; vm_compute; reflexivity. Qed.

(** ** More on the tokenizer and the node property parser *)

Lemma bracket_free_inv s :
  bracket_free s = true →
  Str.includes "[" s = false ∧ Str.includes "]" s = false.
Proof.
  unfold bracket_free. intros [H1 H2]%andb_true_iff.
  by apply negb_true_iff in H1, H2.
Qed.

Lemma splitBrackets_loop_text t : ∀ rest split cur,
  bracket_free t = true →
  splitBrackets_loop (t +:+ rest) split cur =
  splitBrackets_loop rest split (cur +:+ t).
Proof.
  induction t as [|c t IH]; intros rest split cur Ht.
  - by rewrite append_empty_l, append_empty_r.
  - apply bracket_free_inv in Ht as [Ho Hc]. simpl in Ho, Hc.
    apply orb_false_iff in Ho as [Ho Ho'], Hc as [Hc Hc'].
    rewrite append_cons. cbn [splitBrackets_loop]. rewrite Ho, Hc.
    rewrite IH by (unfold bracket_free; by rewrite Ho', Hc').
    unfold Str.snoc. by rewrite append_assoc.
Qed.

(** One value under a key makes two tokens. *)
Lemma splitBrackets_loop_prop k v rest split :
  bracket_free k = true → bracket_free v = true →
  splitBrackets_loop (prop_text k v +:+ rest) split "" =
  splitBrackets_loop rest (split ++ [k; String "[" v]) "".
Proof.
  intros Hk Hv. unfold prop_text. rewrite !append_assoc.
  rewrite (splitBrackets_loop_text k _ _ _ Hk), append_empty_l.
  rewrite append_cons, append_empty_l. cbn [splitBrackets_loop].
  rewrite Ascii.eqb_refl.
  rewrite (splitBrackets_loop_text v _ _ _ Hv).
  rewrite append_cons, append_empty_l. cbn [splitBrackets_loop]. simpl.
  by rewrite <- app_assoc.
Qed.

Lemma splitBrackets_loop_extends s : ∀ split cur,
  (splitBrackets_loop s split cur).1 =
  split ++ (splitBrackets_loop s [] cur).1.
Proof.
  induction s as [|c s IH]; intros split cur; [by rewrite app_nil_r|].
  cbn [splitBrackets_loop].
  destruct (Ascii.eqb c "[");
    [rewrite (IH (split ++ _)), (IH ([] ++ _)); by rewrite <- app_assoc|].
  destruct (Ascii.eqb c "]");
    [rewrite (IH (split ++ _)), (IH ([] ++ _)); by rewrite <- app_assoc|].
  apply IH.
Qed.

Lemma parseNodeData_loop_app cs1 cs2 st :
  parseNodeData_loop (cs1 ++ cs2) st =
  parseNodeData_loop cs1 st ≫= parseNodeData_loop cs2.
Proof.
  revert st. induction cs1 as [|c cs1 IH]; intros st; [done|].
  cbn [app parseNodeData_loop].
  destruct (parseNodeData_step st c) as [st'| |]; [|done|done].
  rewrite !bind_ok_l. apply IH.
Qed.

Lemma parseNodeData_step_key st k :
  Str.includes "[" k = false →
  parseNodeData_step st k = Ok (Some k, st.2).
Proof. intros Hk. destruct st. unfold parseNodeData_step. by rewrite Hk. Qed.

(** X1: a node text without any bracket (the empty text, a key without
    value, leftover text) parses to the empty property map. *)
Theorem text_without_brackets_has_no_property (t : string) :
  bracket_free t = true → parseNodeData (Some t) = Ok [].
Proof.
  intros Ht. unfold parseNodeData, splitBrackets.
  apply bracket_free_inv in Ht as [Ho Hc].
  by rewrite (splitBrackets_loop_plain t [] "" Ho Hc).
Qed.

Lemma text_without_brackets_has_no_property_witness :
  bracket_free "AB" = true ∧ parseNodeData (Some "AB") = Ok [].
Proof.
  split; [reflexivity|].
  exact (text_without_brackets_has_no_property "AB" eq_refl).
Defined.

Lemma inherited_bracket_free k : Obj.inherited k = true → bracket_free k = true.
Proof.
  unfold Obj.inherited. intros H%bool_decide_eq_true.
  repeat (apply elem_of_cons in H as [->|H]; [reflexivity|]).
  by apply elem_of_nil in H.
Qed.

(** X2: a value under a key that every object inherits from
    [Object.prototype] ([constructor], [toString], ...) makes the parser
    raise, whatever follows in the node text: the inherited member is
    truthy, is not a string and has no [concat]. *)
Theorem inherited_key_raises (k v rest : string) :
  Obj.inherited k = true → bracket_free v = true →
  parseNodeData (Some (prop_text k v +:+ rest)) = TypeError.
Proof.
  intros Hk Hv. pose proof (inherited_bracket_free k Hk) as Hkb.
  unfold parseNodeData, splitBrackets.
  rewrite (splitBrackets_loop_prop k v rest [] Hkb Hv).
  rewrite splitBrackets_loop_extends, app_nil_l.
  change ([k; String "[" v] ++ ?l) with (k :: String "[" v :: l).
  cbn [first head parseNodeData_loop].
  rewrite parseNodeData_step_key by (by apply bracket_free_inv in Hkb as [? _]).
  rewrite bind_ok_l. cbn [snd].
  unfold parseNodeData_step at 1. cbn [Str.includes Ascii.eqb]. simpl.
  by rewrite Hk.
Qed.

Lemma inherited_key_raises_witness :
  Obj.inherited "constructor" = true ∧ bracket_free "x" = true ∧
  parseNodeData (Some "constructor[x]B[aa]") = TypeError.
Proof.
  split; [reflexivity|]. split; [reflexivity|].
  exact (inherited_key_raises "constructor" "x" "B[aa]" eq_refl eq_refl).
Defined.

Lemma foldl_append acc xs :
  foldl (λ p v : string, p +:+ v) acc xs = acc +:+ Str.concat xs.
Proof.
  revert acc. induction xs as [|x xs IH]; intros acc; simpl.
  - by rewrite append_empty_r.
  - by rewrite IH, append_assoc.
Qed.

Lemma entries_without_index (o : SgfProperties) :
  Forall (λ e, Obj.array_index e.1 = None) o → Obj.entries o = o.
Proof.
  intros Ho. unfold Obj.entries.
  assert (foldr (λ e acc,
                   match Obj.array_index e.1 with
                   | Some n => Obj.insert_sorted n e acc
                   | None => acc
                   end) [] o = []) as ->.
  { induction Ho as [|e o He _ IH]; [done|]. simpl. by rewrite He. }
  simpl. induction Ho as [|e o He _ IH]; [done|]. simpl.
  rewrite He. simpl. by rewrite IH.
Qed.

Lemma splitBrackets_loop_props (kvs : list (string * string)) rest split :
  Forall (λ kv, bracket_free kv.1 = true ∧ bracket_free kv.2 = true) kvs →
  splitBrackets_loop
    (Str.concat ((λ kv, prop_text kv.1 kv.2) <$> kvs) +:+ rest) split "" =
  splitBrackets_loop rest (split ++ (kvs ≫= λ kv, prop_tokens kv.1 kv.2)) "".
Proof.
  intros Hkvs. revert split.
  induction Hkvs as [|[k v] kvs [Hk Hv] _ IH]; intros split.
  - by rewrite app_nil_r.
  - cbn [fmap list_fmap Str.concat fst snd]. rewrite append_assoc.
    rewrite (splitBrackets_loop_prop k v _ _ Hk Hv), IH.
    rewrite bind_cons. unfold prop_tokens at 2. cbn [fst snd].
    by rewrite <- app_assoc.
Qed.

Lemma splitBrackets_props (kvs : list (string * string)) :
  Forall (λ kv, bracket_free kv.1 = true ∧ bracket_free kv.2 = true) kvs →
  splitBrackets (Str.concat ((λ kv, prop_text kv.1 kv.2) <$> kvs)) =
  kvs ≫= λ kv, prop_tokens kv.1 kv.2.
Proof.
  intros Hkvs. unfold splitBrackets.
  rewrite <- (append_empty_r (Str.concat _)).
  by rewrite (splitBrackets_loop_props kvs "" [] Hkvs).
Qed.

Lemma get_absent k (o : SgfProperties) : k ∉ o.*1 → Obj.get k o = None.
Proof.
  induction o as [|[k' v] o IH]; [done|]. simpl.
  intros Hk. apply not_elem_of_cons in Hk as [Hne Hk].
  destruct (String.eqb_spec k' k); [congruence|]. by apply IH.
Qed.

Lemma set_absent k v (o : SgfProperties) :
  k ∉ o.*1 → Obj.set k v o = o ++ [(k, v)].
Proof.
  induction o as [|[k' v'] o IH]; [done|]. simpl.
  intros Hk. apply not_elem_of_cons in Hk as [Hne Hk].
  destruct (String.eqb_spec k' k); [congruence|]. by rewrite IH.
Qed.

(** One value for a new key adds the single string, last. *)
Lemma parseNodeData_loop_new k v key (nodeData : SgfProperties) :
  bracket_free k = true → Obj.inherited k = false → k ∉ nodeData.*1 →
  parseNodeData_loop (prop_tokens k v) (key, nodeData) =
    Ok (Some k, nodeData ++ [(k, PStr v)]).
Proof.
  intros Hk Hin Hnew. apply bracket_free_inv in Hk as [Hk _].
  unfold prop_tokens. cbn [parseNodeData_loop].
  rewrite (parseNodeData_step_key _ k Hk), bind_ok_l. cbn [snd].
  unfold parseNodeData_step. cbn [Str.includes]. rewrite Ascii.eqb_refl.
  cbn [orb Str.slice1 to_key to_text default]. simpl.
  by rewrite (get_absent _ _ Hnew), Hin, (set_absent _ _ _ Hnew).
Qed.

Lemma parseNodeData_loop_simple (kvs : list (string * string)) :
  ∀ key (nodeData : SgfProperties),
  Forall (λ kv, bracket_free kv.1 = true ∧ Obj.inherited kv.1 = false) kvs →
  NoDup (nodeData.*1 ++ kvs.*1) →
  ∃ key',
    parseNodeData_loop (kvs ≫= λ kv, prop_tokens kv.1 kv.2) (key, nodeData) =
      Ok (key', nodeData ++ ((λ kv, (kv.1, PStr kv.2)) <$> kvs)).
Proof.
  induction kvs as [|[k v] kvs IH]; intros key nd Hkvs Hnd.
  - exists key. by rewrite app_nil_r.
  - inversion Hkvs as [|? ? [Hk Hin] Hkvs']; subst. cbn [fst snd] in *.
    rewrite bind_cons, parseNodeData_loop_app. cbn [fst snd].
    assert (k ∉ nd.*1) as Hnew.
    { intros Hel. apply NoDup_app in Hnd as (_ & Hdisj & _).
      apply (Hdisj k Hel). simpl. left. }
    rewrite (parseNodeData_loop_new k v key nd Hk Hin Hnew), bind_ok_l.
    destruct (IH (Some k) (nd ++ [(k, PStr v)]) Hkvs') as [key' Hloop].
    { rewrite fmap_app. simpl. rewrite <- app_assoc. exact Hnd. }
    exists key'. rewrite Hloop. simpl. by rewrite <- app_assoc.
Qed.

Lemma simple_entry_inv k v :
  simple_entry (k, v) = true →
  bracket_free k = true ∧ Obj.inherited k = false ∧
  Obj.array_index k = None ∧ ∃ s, v = PStr s ∧ bracket_free s = true.
Proof.
  unfold simple_entry.
  intros [[[Hk Hin]%andb_true_iff Hix]%andb_true_iff Hv]%andb_true_iff.
  simpl in *. apply negb_true_iff in Hin, Hix.
  split; [done|]. split; [done|]. split.
  - apply bool_decide_eq_false in Hix.
    destruct (Obj.array_index k); [|done]. destruct Hix. eauto.
  - destruct v as [s|l]; [eauto|done].
Qed.

(** X3: for a property map whose keys are distinct and whose entries are
    simple (a single string without brackets under a key without brackets
    that is neither inherited nor an array index), the raw text that the
    constructor derives parses back to the same map, in the same order. *)
Theorem derived_text_parses_back (sgfProps : SgfProperties) :
  NoDup sgfProps.*1 → forallb simple_entry sgfProps = true →
  parseNodeData (Some (nodeDataToString sgfProps)) = Ok sgfProps.
Proof.
  intros Hnd Hsimple.
  assert (Forall (λ e, simple_entry e = true) sgfProps) as Hall.
  { apply Forall_forall. intros e He.
    by apply (proj1 (forallb_forall _ _) Hsimple), list_elem_of_In. }
  set (kvs := (λ e, (e.1, value_text e.2)) <$> sgfProps).
  assert ((λ kv, (kv.1, PStr kv.2)) <$> kvs = sgfProps) as Hback.
  { unfold kvs. rewrite <- list_fmap_compose.
    rewrite <- (list_fmap_id sgfProps) at 2. apply Forall_fmap_ext_1.
    eapply Forall_impl; [exact Hall|]. intros [k v] He.
    by apply simple_entry_inv in He as (_ & _ & _ & s & -> & _). }
  assert (kvs.*1 = sgfProps.*1) as Hkeys.
  { unfold kvs. by rewrite <- list_fmap_compose. }
  unfold nodeDataToString. rewrite entries_without_index; cycle 1.
  { eapply Forall_impl; [exact Hall|]. intros [k v] He.
    by apply simple_entry_inv in He as (_ & _ & ? & _). }
  rewrite foldl_append, append_empty_l.
  replace ((λ e, e.1 +:+ "[" +:+ value_text e.2 +:+ "]") <$> sgfProps)
    with ((λ kv, prop_text kv.1 kv.2) <$> kvs)
    by (unfold kvs; by rewrite <- list_fmap_compose).
  unfold parseNodeData. rewrite splitBrackets_props; cycle 1.
  { unfold kvs. apply Forall_fmap.
    eapply Forall_impl; [exact Hall|]. intros [k v] He. simpl.
    by apply simple_entry_inv in He as (? & _ & _ & s & -> & ?). }
  destruct (parseNodeData_loop_simple kvs
              (first (kvs ≫= λ kv, prop_tokens kv.1 kv.2)) [])
    as [key' Hloop].
  { unfold kvs. apply Forall_fmap.
    eapply Forall_impl; [exact Hall|]. intros [k v] He. simpl.
    by apply simple_entry_inv in He as (? & ? & _). }
  { simpl. by rewrite Hkeys. }
  rewrite Hloop, bind_ok_l. simpl. by rewrite Hback.
Qed.

Lemma derived_text_parses_back_witness :
  let m := [("B", PStr "dd"); ("C", PStr "a comment"); ("", PStr "")] in
  NoDup m.*1 ∧ forallb simple_entry m = true ∧
  nodeDataToString m = "B[dd]C[a comment][]" ∧
  parseNodeData (Some (nodeDataToString m)) = Ok m.
Proof.
  intros m.
  assert (NoDup m.*1) as Hnd by (apply (bool_decide_eq_true_1 _); reflexivity).
  split; [exact Hnd|]. split; [reflexivity|]. split; [reflexivity|].
  exact (derived_text_parses_back m Hnd eq_refl).
Defined.

Lemma get_head k v (o : SgfProperties) : Obj.get k ((k, v) :: o) = Some v.
Proof. simpl. by rewrite String.eqb_refl. Qed.

Lemma set_head k v v' (o : SgfProperties) :
  Obj.set k v' ((k, v) :: o) = (k, v') :: o.
Proof. simpl. by rewrite String.eqb_refl. Qed.

Lemma parseNodeData_loop_value k x key (nodeData : SgfProperties) :
  bracket_free k = true →
  parseNodeData_loop (prop_tokens k x) (key, nodeData) =
    parseNodeData_step (Some k, nodeData) (String "[" x).
Proof.
  intros Hk. apply bracket_free_inv in Hk as [Hk _].
  unfold prop_tokens. cbn [parseNodeData_loop].
  rewrite (parseNodeData_step_key _ k Hk), bind_ok_l. cbn [snd].
  by destruct (parseNodeData_step _ _).
Qed.

Lemma parseNodeData_loop_more k (vs : list string) : ∀ key l,
  bracket_free k = true →
  ∃ key',
    parseNodeData_loop (vs ≫= prop_tokens k) (key, [(k, PList l)]) =
      Ok (key', [(k, PList (l ++ vs))]).
Proof.
  induction vs as [|x vs IH]; intros key l Hk.
  - exists key. by rewrite app_nil_r.
  - rewrite bind_cons, parseNodeData_loop_app.
    rewrite (parseNodeData_loop_value k x key _ Hk).
    rewrite (parseNodeData_step_appends k x l) by apply get_head.
    rewrite bind_ok_l, set_head.
    destruct (IH (Some k) (l ++ [x]) Hk) as [key' Hloop].
    exists key'. rewrite Hloop. by rewrite <- app_assoc.
Qed.

(** X4: when a key is written again before each of its values
    ([k[v1]k[v2]...]), the values gather under that key in order: a single
    value stays a string, two or more make the list, provided the first one
    is not empty. *)
Theorem repeated_key_gathers_values (k v : string) (vs : list string) :
  bracket_free k = true → Obj.inherited k = false →
  forallb bracket_free (v :: vs) = true → v ≠ "" →
  parseNodeData (Some (Str.concat (prop_text k <$> (v :: vs)))) =
    Ok [(k, match vs with [] => PStr v | _ => PList (v :: vs) end)].
Proof.
  intros Hk Hin Hvs Hv.
  set (kvs := (λ x, (k, x)) <$> (v :: vs)).
  replace (prop_text k <$> (v :: vs))
    with ((λ kv, prop_text kv.1 kv.2) <$> kvs)
    by (unfold kvs; by rewrite <- list_fmap_compose).
  unfold parseNodeData. rewrite splitBrackets_props; cycle 1.
  { unfold kvs. apply Forall_fmap, Forall_forall. intros x Hx. simpl.
    split; [done|].
    by apply (proj1 (forallb_forall _ _) Hvs), list_elem_of_In. }
  unfold kvs. rewrite fmap_cons, bind_cons. cbn [fst snd].
  rewrite parseNodeData_loop_app.
  rewrite (parseNodeData_loop_new k v _ [] Hk Hin) by apply not_elem_of_nil.
  rewrite bind_ok_l, app_nil_l.
  destruct vs as [|w vs]; [done|].
  rewrite fmap_cons, bind_cons. cbn [fst snd].
  rewrite parseNodeData_loop_app.
  rewrite (parseNodeData_loop_value k w _ _ Hk).
  rewrite (parseNodeData_step_promotes k v w) by (apply get_head || done).
  rewrite bind_ok_l, set_head.
  replace (((λ x, (k, x)) <$> vs) ≫= λ kv, prop_tokens kv.1 kv.2)
    with (vs ≫= prop_tokens k).
  - destruct (parseNodeData_loop_more k vs (Some k) [v; w] Hk) as [key' ->].
    by rewrite bind_ok_l.
  - clear. induction vs as [|x vs IH]; [done|].
    by rewrite fmap_cons, !bind_cons, IH.
Qed.

Lemma repeated_key_gathers_values_witness :
  bracket_free "AB" = true ∧ Obj.inherited "AB" = false ∧
  forallb bracket_free ["aa"; "bb"; ""] = true ∧ "aa" ≠ "" ∧
  parseNodeData (Some "AB[aa]AB[bb]AB[]") = Ok [("AB", PList ["aa"; "bb"; ""])].
Proof.
  assert ("aa" ≠ "") as Hne by discriminate.
  split; [reflexivity|]. split; [reflexivity|]. split; [reflexivity|].
  split; [exact Hne|].
  exact (repeated_key_gathers_values "AB" "aa" ["bb"; ""] eq_refl eq_refl
           eq_refl Hne).
Defined.

(** ** More on the clean-up *)

Lemma drop_while_length p s :
  (String.length (Str.drop_while p s) ≤ String.length s)%nat.
Proof.
  induction s as [|c s IH]; [done|]. simpl.
  destruct (p c); simpl; lia.
Qed.

(** [drop_while] leaves a text alone exactly when the text does not start
    with a dropped character. *)
Lemma drop_while_fixed p c s :
  Str.drop_while p (String c s) = String c s ↔ p c = false.
Proof.
  simpl. destruct (p c); [|done]. split; [|done]. intros H.
  pose proof (drop_while_length p s) as Hlen. rewrite H in Hlen.
  simpl in Hlen. lia.
Qed.

Lemma drop_while_idem p s :
  Str.drop_while p (Str.drop_while p s) = Str.drop_while p s.
Proof.
  induction s as [|c s IH]; [done|]. simpl.
  destruct (p c) eqn:E; [done|]. simpl. by rewrite E.
Qed.

Lemma drop_while_suffix p s :
  ∃ pre, s = pre +:+ Str.drop_while p s.
Proof.
  induction s as [|c s [pre IH]]; [by exists ""|]. simpl.
  destruct (p c).
  - exists (String c pre). by rewrite append_cons, <- IH.
  - by exists "".
Qed.

Lemma str_rev_app s t : Str.rev (s +:+ t) = Str.rev t +:+ Str.rev s.
Proof.
  induction s as [|c s IH].
  - by rewrite append_empty_l, append_empty_r.
  - by rewrite append_cons, !str_rev_cons, IH, append_assoc.
Qed.

Lemma str_filter_app q s t :
  Str.filter q (s +:+ t) = Str.filter q s +:+ Str.filter q t.
Proof.
  induction s as [|c s IH]; [done|]. rewrite append_cons. simpl.
  destruct (q c); [|done]. by rewrite append_cons, IH.
Qed.

Lemma str_filter_rev q s : Str.filter q (Str.rev s) = Str.rev (Str.filter q s).
Proof.
  induction s as [|c s IH]; [done|].
  rewrite str_rev_cons, str_filter_app, IH. simpl.
  destruct (q c); [by rewrite str_rev_cons|by rewrite append_empty_r].
Qed.

Lemma trim_trimmed s : trimmed (Str.trim s).
Proof.
  unfold Str.trim.
  set (t := Str.drop_while Str.is_white s).
  set (d := Str.drop_while Str.is_white (Str.rev t)).
  split; [|by rewrite str_rev_involutive; apply drop_while_idem].
  destruct (drop_while_suffix Str.is_white (Str.rev t)) as [pre Hpre].
  fold d in Hpre.
  assert (t = Str.rev d +:+ Str.rev pre) as Ht.
  { by rewrite <- str_rev_app, <- Hpre, str_rev_involutive. }
  destruct (Str.rev d) as [|c x] eqn:Hd; [done|].
  apply drop_while_fixed.
  assert (Str.drop_while Str.is_white t = t) as Hfix by apply drop_while_idem.
  rewrite Ht, append_cons in Hfix. by apply drop_while_fixed in Hfix.
Qed.

Lemma trim_of_trimmed s : trimmed s → Str.trim s = s.
Proof.
  intros [H1 H2]. unfold Str.trim. by rewrite H1, H2, str_rev_involutive.
Qed.

Lemma drop_while_filter q s :
  (∀ c, q c = false → Str.is_white c = true) →
  Str.drop_while Str.is_white s = s →
  Str.drop_while Str.is_white (Str.filter q s) = Str.filter q s.
Proof.
  intros Hq Hs. destruct s as [|c s]; [done|].
  apply drop_while_fixed in Hs. simpl.
  destruct (q c) eqn:E; [|by rewrite (Hq c E) in Hs].
  by apply drop_while_fixed.
Qed.

Lemma filter_trimmed q s :
  (∀ c, q c = false → Str.is_white c = true) →
  trimmed s → trimmed (Str.filter q s).
Proof.
  intros Hq [H1 H2]. split; [by apply drop_while_filter|].
  rewrite <- str_filter_rev. by apply drop_while_filter.
Qed.

Lemma sgfCleanup_trimmed s : trimmed (sgfCleanup s).
Proof.
  unfold sgfCleanup, Str.remove_all.
  apply filter_trimmed; [|apply filter_trimmed; [|apply trim_trimmed]];
    intros c Hc; apply negb_false_iff, Ascii.eqb_eq in Hc; by subst.
Qed.

(** X5: a cleaned text holds no line feed and no tab, has no white space at
    either end, and cleaning it again changes nothing. *)
Theorem sgfCleanup_idempotent (sgf : string) :
  all_chars clean_char (sgfCleanup sgf) = true ∧
  trimmed (sgfCleanup sgf) ∧
  sgfCleanup (sgfCleanup sgf) = sgfCleanup sgf.
Proof.
  pose proof (sgfCleanup_clean sgf) as Hclean.
  pose proof (sgfCleanup_trimmed sgf) as Htrim.
  split; [done|]. split; [done|].
  unfold sgfCleanup at 1. rewrite (trim_of_trimmed _ Htrim).
  unfold Str.remove_all.
  assert (all_chars (λ x, negb (Ascii.eqb x "010")) (sgfCleanup sgf) = true)
    as Hlf.
  { eapply all_chars_impl; [|exact Hclean].
    unfold clean_char. by intros c [? ?]%andb_true_iff. }
  assert (all_chars (λ x, negb (Ascii.eqb x "009")) (sgfCleanup sgf) = true)
    as Htab.
  { eapply all_chars_impl; [|exact Hclean].
    unfold clean_char. by intros c [? ?]%andb_true_iff. }
  by rewrite (str_filter_id _ _ Hlf), (str_filter_id _ _ Htab).
Qed.

(** ** More on the scanner *)

Lemma scan_text u : ∀ (h : store) cur txt,
  paren_free u = true →
  scan u (mkScanner h cur (Some txt)) = Ok (mkScanner h cur (Some (txt +:+ u))).
Proof.
  induction u as [|c u IH]; intros h cur txt Hu.
  - by rewrite append_empty_r.
  - unfold paren_free in Hu. apply andb_true_iff in Hu as [Ho Hc].
    apply negb_true_iff in Ho, Hc. simpl in Ho, Hc.
    apply orb_false_iff in Ho as [Ho Ho'], Hc as [Hc Hc'].
    cbn [scan]. unfold scan_char. rewrite Ho, Hc, bind_ok_l.
    cbn [heap currentTree currentString to_text default].
    rewrite IH by (unfold paren_free; by rewrite Ho', Hc').
    unfold Str.snoc. by rewrite append_assoc.
Qed.

(** X6: a text that, once cleaned up, holds no parenthesis (the empty text
    among them) parses to a lone root, without properties and without
    children: the text is dropped. *)
Theorem text_without_branch_is_dropped (sgf : string) :
  paren_free (sgfCleanup sgf) = true →
  parseSgf sgf = Ok ([mkSgfTree [] [] None (Some "")], 0%nat).
Proof.
  intros Hs. unfold parseSgf, parseBranches.
  change (new_SgfTree [] [] None "") with (Ok (mkSgfTree [] [] None (Some ""))).
  by rewrite bind_ok_l, (scan_text _ _ _ _ Hs), bind_ok_l.
Qed.

Lemma text_without_branch_is_dropped_witness :
  paren_free (sgfCleanup " ;B[aa];W[bb] ") = true ∧
  parseSgf " ;B[aa];W[bb] " = Ok ([mkSgfTree [] [] None (Some "")], 0%nat).
Proof.
  split; [reflexivity|].
  exact (text_without_branch_is_dropped " ;B[aa];W[bb] " eq_refl).
Defined.

(** X7: a text that opens one branch and never closes it parses to the node
    of that branch, not to the root; that node has no properties, and the
    text read for it is in neither node. *)
Theorem unclosed_branch_returns_open_node (sgf w : string) :
  sgfCleanup sgf = String "(" w → paren_free w = true →
  parseSgf sgf =
    Ok ([mkSgfTree [] [1%nat] None (Some "");
         mkSgfTree [] [] (Some 0%nat) (Some "")], 1%nat).
Proof.
  intros Hs Hw. unfold parseSgf, parseBranches. rewrite Hs.
  change (new_SgfTree [] [] None "") with (Ok (mkSgfTree [] [] None (Some ""))).
  rewrite bind_ok_l. cbn [scan]. unfold scan_char at 1. simpl.
  by rewrite (scan_text _ _ _ _ Hw), bind_ok_l.
Qed.

Lemma unclosed_branch_returns_open_node_witness :
  sgfCleanup "(;B[aa];W[bb]" = String "(" ";B[aa];W[bb]" ∧
  paren_free ";B[aa];W[bb]" = true ∧
  parseSgf "(;B[aa];W[bb]" =
    Ok ([mkSgfTree [] [1%nat] None (Some "");
         mkSgfTree [] [] (Some 0%nat) (Some "")], 1%nat).
Proof.
  split; [reflexivity|]. split; [reflexivity|].
  exact (unclosed_branch_returns_open_node "(;B[aa];W[bb]" ";B[aa];W[bb]"
           eq_refl eq_refl).
Defined.

Lemma frames_scan_app a b fs :
  frames_scan (a +:+ b) fs = frames_scan a fs ≫= frames_scan b.
Proof.
  revert fs. induction a as [|c a IH]; intros fs; [done|].
  rewrite append_cons. cbn [frames_scan].
  destruct (frames_char fs c) as [fs'|]; [|done]. simpl. apply IH.
Qed.

(** X8: when a text parses to the root, the same text followed by one more
    closing parenthesis makes the parser raise, whatever comes after that
    parenthesis. *)
Theorem extra_closing_parenthesis_raises (sgf sgf' v : string)
    (h : store) (r : addr) (n : SgfTree) :
  parseSgf sgf = Ok (h, r) → h !! r = Some n → parent n = None →
  sgfCleanup sgf' = sgfCleanup sgf +:+ String ")" v →
  parseSgf sgf' = TypeError.
Proof.
  unfold parseSgf. intros Hp Hn Hpar Hs'.
  destruct (parseBranches_root _ h r n Hp Hn Hpar) as (txt & dn & Hscan & _).
  rewrite Hs'. unfold parseBranches.
  change (new_SgfTree [] [] None "") with (Ok (mkSgfTree [] [] None (Some ""))).
  rewrite bind_ok_l.
  pose proof (sim_scan (sgfCleanup sgf +:+ String ")" v) _ _ sim_init) as Hsim.
  rewrite frames_scan_app, Hscan in Hsim. simpl in Hsim.
  by rewrite Hsim.
Qed.

Lemma extra_closing_parenthesis_raises_witness :
  parseSgf "(;B[aa];W[bb])" = Ok (sequence_store, 0%nat) ∧
  sequence_store !! 0%nat = Some (mkSgfTree [] [1%nat] None (Some "")) ∧
  sgfCleanup "(;B[aa];W[bb]))(;B[cc])" =
    sgfCleanup "(;B[aa];W[bb])" +:+ String ")" "(;B[cc])" ∧
  parseSgf "(;B[aa];W[bb]))(;B[cc])" = TypeError.
Proof.
  assert (parseSgf "(;B[aa];W[bb])" = Ok (sequence_store, 0%nat)) as Hp
    by (vm_compute; reflexivity).
  split; [exact Hp|]. split; [reflexivity|]. split; [reflexivity|].
  exact (extra_closing_parenthesis_raises "(;B[aa];W[bb])"
           "(;B[aa];W[bb]))(;B[cc])" "(;B[cc])" sequence_store 0%nat _
           Hp eq_refl eq_refl eq_refl).
Defined.

(** ** More on the round trip *)

(** What a parse that returns the root leaves below it, with the
    serialization that parses to the same shapes. *)
Lemma parse_root_shapes (s : string) (h : store) (r : addr) (n : SgfTree) :
  parseSgf s = Ok (h, r) → h !! r = Some n → parent n = None →
  ∃ dn, data n = [] ∧ forallb wf_shape dn = true ∧
        Forall2 (holds 1 (length h) h) (children n) dn ∧
        ∃ (h' : store) r' n',
          parseSgf (sgf_root dn) = Ok (h', r') ∧ h' !! r' = Some n' ∧
          parent n' = None ∧ data n' = [] ∧
          Forall2 (holds 1 (length h') h') (children n') dn.
Proof.
  unfold parseSgf. intros Hparse Hn Hpar.
  destruct (parseBranches_root _ h r n Hparse Hn Hpar)
    as (txt & dn & Hscan & Hd & Hk).
  assert (forallb wf_shape dn = true) as Hwf.
  { assert (wf_frames [(txt, dn)]) as Hfs.
    { eapply wf_frames_scan; [|apply sgfCleanup_clean|exact Hscan].
      by repeat constructor. }
    by inversion Hfs as [|? ? [_ ?] _]. }
  destruct (rescan_root dn "" [] Hwf) as [txt' Hrescan].
  destruct (parseBranches_frames _ _ _ Hrescan)
    as (h' & r' & n' & Hparse' & Hn' & Hpar' & Hd' & Hk').
  exists dn. repeat split; try done.
  exists h', r', n'. by rewrite sgfCleanup_sgf_root.
Qed.

(** X9: when a text parses to the root, serializing the tree, parsing the
    serialization and serializing again gives the first serialization: one
    round makes the text stable. *)
Theorem serialization_stable (s : string) (h : store) (r : addr) (n : SgfTree) :
  parseSgf s = Ok (h, r) → h !! r = Some n → parent n = None →
  ∃ text h' r' fuel0,
    parseSgf text = Ok (h', r') ∧
    ∀ fuel, (fuel0 ≤ fuel)%nat →
      toSgf fuel h r = Some text ∧ toSgf fuel h' r' = Some text.
Proof.
  intros Hparse Hn Hpar.
  destruct (parse_root_shapes s h r n Hparse Hn Hpar)
    as (dn & Hd & Hwf & Hk & h' & r' & n' & Hparse' & Hn' & Hpar' & Hd' & Hk').
  exists (sgf_root dn), h', r', (S (max_list (height <$> dn))).
  split; [done|]. intros fuel Hfuel.
  destruct (root_projections 1 (length h) h r n dn Hn Hpar Hd Hk fuel)
    as [Hsgf _]; [lia|].
  destruct (root_projections 1 (length h') h' r' n' dn Hn' Hpar' Hd' Hk' fuel)
    as [Hsgf' _]; [lia|].
  done.
Qed.

Lemma serialization_stable_witness :
  parseSgf "(;B[aa](;W[bb]))(;B[cc])" =
    Ok ([mkSgfTree [] [1%nat; 3%nat] None (Some "");
         mkSgfTree [("B", PStr "aa")] [2%nat] (Some 0%nat) (Some "B[aa]");
         mkSgfTree [("W", PStr "bb")] [] (Some 1%nat) (Some "W[bb]");
         mkSgfTree [("B", PStr "cc")] [] (Some 0%nat) (Some "B[cc]")], 0%nat) ∧
  ∃ text h' r' fuel0,
    parseSgf text = Ok (h', r') ∧
    ∀ fuel, (fuel0 ≤ fuel)%nat →
      toSgf fuel
        [mkSgfTree [] [1%nat; 3%nat] None (Some "");
         mkSgfTree [("B", PStr "aa")] [2%nat] (Some 0%nat) (Some "B[aa]");
         mkSgfTree [("W", PStr "bb")] [] (Some 1%nat) (Some "W[bb]");
         mkSgfTree [("B", PStr "cc")] [] (Some 0%nat) (Some "B[cc]")] 0
        = Some text ∧
      toSgf fuel h' r' = Some text.
Proof.
  assert (parseSgf "(;B[aa](;W[bb]))(;B[cc])" =
    Ok ([mkSgfTree [] [1%nat; 3%nat] None (Some "");
         mkSgfTree [("B", PStr "aa")] [2%nat] (Some 0%nat) (Some "B[aa]");
         mkSgfTree [("W", PStr "bb")] [] (Some 1%nat) (Some "W[bb]");
         mkSgfTree [("B", PStr "cc")] [] (Some 0%nat) (Some "B[cc]")], 0%nat))
    as Hp by (vm_compute; reflexivity).
  split; [exact Hp|].
  exact (serialization_stable _ _ 0%nat _ Hp eq_refl eq_refl).
Defined.

(** ** Texts that come back as they are *)

Lemma sgf_node text kids : sgf (Node text kids) = text +:+ sgf_tail kids.
Proof.
  destruct kids as [|k1 [|k2 ks]].
  - by rewrite sgf_leaf, append_empty_r.
  - by rewrite sgf_one.
  - by rewrite sgf_many.
Qed.

Lemma sgf_chain m ms kids :
  sgf (chain (m :: ms) kids) = m +:+ acc_of ms +:+ sgf_tail kids.
Proof.
  revert m. induction ms as [|m' ms IH]; intros m.
  - cbn [chain chain_kids]. by rewrite sgf_node.
  - change (chain (m :: m' :: ms) kids) with (Node m [chain (m' :: ms) kids]).
    rewrite sgf_one, IH, acc_of_cons. by rewrite append_cons, append_assoc.
Qed.

Lemma group_render g :
  plain_tree g = true → canonical g = true →
  "(;" +:+ sgf (shape_of g) +:+ ")" = render_tree g.
Proof.
  induction g as [nodes subs IH] using GameTree_forall_ind.
  intros Hp Hc. simpl in Hp, Hc.
  apply andb_true_iff in Hp as [[Hne _]%andb_true_iff Hps].
  apply andb_true_iff in Hc as [Hlen Hcs].
  assert (Str.concat ((λ t, "(;" +:+ sgf t +:+ ")") <$> (shape_of <$> subs)) =
          Str.concat (render_tree <$> subs)) as Hsubs.
  { clear Hlen. induction subs as [|g subs IHs]; [done|].
    inversion IH as [|? ? Hg Hrest]; subst. simpl in Hps, Hcs.
    apply andb_true_iff in Hps as [Hpg Hps], Hcs as [Hcg Hcs].
    cbn [fmap list_fmap Str.concat]. by rewrite (Hg Hpg Hcg), (IHs Hrest Hps Hcs). }
  assert (sgf_tail (shape_of <$> subs) = Str.concat (render_tree <$> subs))
    as Htail.
  { rewrite <- Hsubs. by destruct subs as [|g1 [|g2 gs]]. }
  destruct nodes as [|nd nodes]; [done|].
  cbn [shape_of render_tree]. unfold node_texts. rewrite fmap_cons.
  rewrite sgf_chain, Htail.
  change (Str.concat ((λ nd0, ";" +:+ render_node nd0) <$> nd :: nodes))
    with (String ";" (render_node nd) +:+
          Str.concat ((λ nd0, ";" +:+ render_node nd0) <$> nodes)).
  unfold acc_of. rewrite <- list_fmap_compose.
  by rewrite !append_assoc.
Qed.

(** X10: a text that, once cleaned up, is one plain game tree in which no
    game tree has exactly one subtree parses to a root whose serialization
    is the cleaned text itself. *)
Theorem canonical_text_comes_back (s : string) (g : GameTree) :
  sgfCleanup s = render_tree g → plain_tree g = true → canonical g = true →
  ∃ (h : store) r fuel0,
    parseSgf s = Ok (h, r) ∧
    ∀ fuel, (fuel0 ≤ fuel)%nat → toSgf fuel h r = Some (sgfCleanup s).
Proof.
  intros Hs Hp Hc. unfold parseSgf. rewrite Hs.
  pose proof (frames_scan_tree g Hp "" [] [] "") as Hscan.
  rewrite append_empty_r in Hscan. simpl in Hscan.
  destruct (parseBranches_frames _ _ _ Hscan)
    as (h & r & n & Hparse & Hn & Hpar & Hd & Hk).
  exists h, r, (S (S (height (shape_of g)))). split; [done|].
  intros fuel Hfuel.
  destruct (root_projections 1 (length h) h r n _ Hn Hpar Hd Hk fuel)
    as [Hsgf _]; [simpl; lia|].
  rewrite Hsgf. unfold sgf_root. cbn [fmap list_fmap Str.join].
  by rewrite (group_render g Hp Hc).
Qed.

Lemma canonical_text_comes_back_witness :
  let g := Tree [[mkProperty "B" ["aa"]]; [mkProperty "W" ["bb"]]]
                [Tree [[mkProperty "B" ["cc"]]] [];
                 Tree [[mkProperty "B" ["dd"]]; [mkProperty "W" ["ee"]]] []] in
  let s := " (;B[aa];W[bb]" +:+ String "010" "(;B[cc])(;B[dd];W[ee]))" in
  sgfCleanup s = render_tree g ∧ plain_tree g = true ∧ canonical g = true ∧
  sgfCleanup s = "(;B[aa];W[bb](;B[cc])(;B[dd];W[ee]))" ∧
  ∃ (h : store) r fuel0,
    parseSgf s = Ok (h, r) ∧
    ∀ fuel, (fuel0 ≤ fuel)%nat → toSgf fuel h r = Some (sgfCleanup s).
Proof.
  intros g s.
  assert (sgfCleanup s = render_tree g) as Hs by (vm_compute; reflexivity).
  split; [exact Hs|]. split; [reflexivity|]. split; [reflexivity|].
  split; [vm_compute; reflexivity|].
  exact (canonical_text_comes_back s g Hs eq_refl eq_refl).
Defined.

(** ** The nodes of a parsed tree *)

Lemma holds_kid lo hi (h : store) cs kids c :
  Forall2 (holds lo hi h) cs kids → forallb wf_shape kids = true → c ∈ cs →
  ∃ k, holds lo hi h c k ∧ wf_shape k = true.
Proof.
  intros Hk Hwf Hc. apply list_elem_of_lookup in Hc as [i Hi].
  destruct (Forall2_lookup_l _ _ _ _ _ Hk Hi) as (k & Hki & Hck).
  exists k. split; [done|].
  apply (proj1 (forallb_forall _ _) Hwf), list_elem_of_In.
  by eapply list_elem_of_lookup_2.
Qed.

Lemma holds_reachable lo hi (h : store) a b :
  reachable h a b → ∀ t, holds lo hi h a t → wf_shape t = true →
  ∃ n m, h !! b = Some n ∧ dataAsString n = Some m ∧
         parseNodeData (Some m) = Ok (data n) ∧ wf_move m = true ∧
         is_Some (parent n).
Proof.
  induction 1 as [a|a n c b Hn Hc _ IH]; intros t Hh Hwf.
  - inversion Hh as [a' n text kids Hr Hn Hs Hp Hpar Hk]; subst.
    simpl in Hwf. apply andb_true_iff in Hwf as [Hm _].
    by exists n, text.
  - inversion Hh as [a' n' text kids Hr Hn' Hs Hp Hpar Hk]; subst.
    rewrite Hn in Hn'. injection Hn' as <-.
    simpl in Hwf. apply andb_true_iff in Hwf as [_ Hkids].
    destruct (holds_kid _ _ _ _ _ _ Hk Hkids Hc) as (k & Hck & Hwk).
    by apply (IH k).
Qed.

(** X11: when a text parses to the root, the root has no properties, and
    every node below it has a parent, a raw text that is not empty and
    holds no semicolon, parenthesis, line feed or tab, and the properties
    that this raw text parses to. *)
Theorem parsed_nodes_consistent (s : string) (h : store) (r : addr)
    (n : SgfTree) :
  parseSgf s = Ok (h, r) → h !! r = Some n → parent n = None →
  data n = [] ∧
  ∀ c b, c ∈ children n → reachable h c b →
    ∃ t m, h !! b = Some t ∧ dataAsString t = Some m ∧
           parseNodeData (Some m) = Ok (data t) ∧
           Str.nonempty m = true ∧ all_chars move_char m = true ∧
           is_Some (parent t).
Proof.
  intros Hparse Hn Hpar.
  destruct (parse_root_shapes s h r n Hparse Hn Hpar)
    as (dn & Hd & Hwf & Hk & _).
  split; [done|]. intros c b Hc Hreach.
  destruct (holds_kid _ _ _ _ _ _ Hk Hwf Hc) as (k & Hck & Hwk).
  destruct (holds_reachable _ _ _ _ _ Hreach k Hck Hwk)
    as (t & m & Ht & Hs & Hp & Hm & Hpt).
  apply wf_move_inv in Hm as (Hne & Hall & _).
  by exists t, m.
Qed.

Lemma parsed_nodes_consistent_witness :
  let h := [mkSgfTree [] [1%nat] None (Some "");
            mkSgfTree [("B", PStr "aa")] [4%nat] (Some 0%nat) (Some "B[aa]");
            mkSgfTree [("X", PStr "cc")] [] (Some 1%nat) (Some "X[cc]");
            mkSgfTree [("Y", PStr "dd")] [] (Some 1%nat) (Some "Y[dd]");
            mkSgfTree [("W", PStr "bb")] [2%nat; 3%nat] (Some 1%nat) (Some "W[bb]")] in
  let n := mkSgfTree [] [1%nat] None (Some "") in
  parseSgf "(;B[aa];W[bb](;X[cc])(;Y[dd]))" = Ok (h, 0%nat) ∧
  h !! 0%nat = Some n ∧ parent n = None ∧
  data n = [] ∧
  ∀ c b, c ∈ children n → reachable h c b →
    ∃ t m, h !! b = Some t ∧ dataAsString t = Some m ∧
           parseNodeData (Some m) = Ok (data t) ∧
           Str.nonempty m = true ∧ all_chars move_char m = true ∧
           is_Some (parent t).
Proof.
  intros h n.
  assert (parseSgf "(;B[aa];W[bb](;X[cc])(;Y[dd]))" = Ok (h, 0%nat)) as Hp
    by (vm_compute; reflexivity).
  split; [exact Hp|]. split; [reflexivity|]. split; [reflexivity|].
  exact (parsed_nodes_consistent _ h 0%nat n Hp eq_refl eq_refl).
Defined.

(** ** The array form *)

Lemma toArray_holds t : ∀ lo hi (h : store) a fuel,
  holds lo hi h a t → (height t ≤ fuel)%nat →
  toArray fuel h a = Some (array_of t).
Proof.
  induction t as [text kids IH] using Shape_forall_ind.
  intros lo hi h a fuel Hh Hfuel.
  inversion Hh as [a' n text' kids' Hr Hn Hs Hp Hpar Hk]; subst.
  destruct fuel as [|fuel]; [simpl in Hfuel; lia|]. simpl in Hfuel.
  cbn [toArray]. rewrite Hn. cbn [mbind option_bind].
  rewrite (mapM_holds toArray array_of lo hi h fuel (children n) kids);
    [| |done|lia].
  - cbn [mbind option_bind array_of]. by rewrite Hs.
  - eapply Forall_impl; [exact IH|]. intros k IHk b Hb Hfb. by eapply IHk.
Qed.

Lemma parsed_array_of t : wf_shape t = true → parsed_array (array_of t) = json t.
Proof.
  induction t as [text kids IH] using Shape_forall_ind.
  intros Hwf. simpl in Hwf. apply andb_true_iff in Hwf as [_ Hkids].
  cbn [array_of parsed_array json]. unfold props. f_equal.
  rewrite <- list_fmap_compose. apply Forall_fmap_ext_1, Forall_forall.
  intros k Hk. apply (proj1 (Forall_forall _ _) IH k Hk).
  by apply (proj1 (forallb_forall _ _) Hkids), list_elem_of_In.
Qed.

(** X12: when a text parses to the root, every child of the root has an
    array form, and its JSON form is that array form with every raw text
    parsed into properties. *)
Theorem json_is_parsed_array (s : string) (h : store) (r : addr) (n : SgfTree) :
  parseSgf s = Ok (h, r) → h !! r = Some n → parent n = None →
  ∀ c, c ∈ children n →
    ∃ fuel0, ∀ fuel, (fuel0 ≤ fuel)%nat →
      ∃ arr, toArray fuel h c = Some arr ∧
             toJson fuel h c = Some (parsed_array arr).
Proof.
  intros Hparse Hn Hpar c Hc.
  destruct (parse_root_shapes s h r n Hparse Hn Hpar)
    as (dn & Hd & Hwf & Hk & _).
  destruct (holds_kid _ _ _ _ _ _ Hk Hwf Hc) as (k & Hck & Hwk).
  exists (height k). intros fuel Hfuel. exists (array_of k).
  rewrite (toArray_holds k _ _ _ _ _ Hck Hfuel).
  rewrite (toJson_holds k _ _ _ _ _ Hck Hfuel).
  by rewrite (parsed_array_of k Hwk).
Qed.

Lemma json_is_parsed_array_witness :
  parseSgf "(;B[aa];W[bb])" = Ok (sequence_store, 0%nat) ∧
  sequence_store !! 0%nat = Some (mkSgfTree [] [1%nat] None (Some "")) ∧
  ∀ c, c ∈ [1%nat] →
    ∃ fuel0, ∀ fuel, (fuel0 ≤ fuel)%nat →
      ∃ arr, toArray fuel sequence_store c = Some arr ∧
             toJson fuel sequence_store c = Some (parsed_array arr).
Proof.
  assert (parseSgf "(;B[aa];W[bb])" = Ok (sequence_store, 0%nat)) as Hp
    by (vm_compute; reflexivity).
  split; [exact Hp|]. split; [reflexivity|].
  exact (json_is_parsed_array _ sequence_store 0%nat _ Hp eq_refl eq_refl).
Defined.

Lemma grammar_text_parses_witness :
  sgfCleanup "(;B[aa];W[bb](;B[cc])(;AB[dd]C[x y]))" =
    Str.concat (render_tree <$>
      [Tree [[mkProperty "B" ["aa"]]; [mkProperty "W" ["bb"]]]
            [Tree [[mkProperty "B" ["cc"]]] [];
             Tree [[mkProperty "AB" ["dd"]; mkProperty "C" ["x y"]]] []]]) ∧
  ∃ (h : store) r n,
    parseSgf "(;B[aa];W[bb](;B[cc])(;AB[dd]C[x y]))" = Ok (h, r) ∧
    h !! r = Some n ∧ parent n = None ∧
    ∀ fuel, (3 < fuel)%nat →
      toJson fuel h r =
        Some (Json []
          [Json [("B", PStr "aa")]
             [Json [("W", PStr "bb")]
                [Json [("B", PStr "cc")] [];
                 Json [("AB", PStr "dd"); ("C", PStr "x y")] []]]]).
Proof.
  split; [vm_compute; reflexivity|].
  exact (grammar_text_parses "(;B[aa];W[bb](;B[cc])(;AB[dd]C[x y]))"
           [Tree [[mkProperty "B" ["aa"]]; [mkProperty "W" ["bb"]]]
                 [Tree [[mkProperty "B" ["cc"]]] [];
                  Tree [[mkProperty "AB" ["dd"]; mkProperty "C" ["x y"]]] []]]
           eq_refl eq_refl).
Defined.

(** ** More on the tree editor *)

Lemma descend_None n (h : store) :
  descend n h None = if decide (n = 0%nat) then Ok None else TypeError.
Proof. by destruct n. Qed.

Lemma descend_add m n (h : store) cur :
  descend (m + n) h cur = descend m h cur ≫= descend n h.
Proof.
  revert cur. induction m as [|m IH]; intros cur; [done|].
  cbn [Nat.add descend]. destruct cur as [a|]; [|done].
  destruct (deref h a) as [t| |]; [|done|done].
  rewrite !bind_ok_l. apply IH.
Qed.

(** X13: descending [a + b] first-child steps is descending [a] steps and,
    from the node reached (or from [undefined], past a leaf), [b] more. *)
Theorem getDownToParent_add (h : store) (this : addr) (a b : Z) :
  0 ≤ a → 0 ≤ b →
  getDownToParent h this (a + b) =
    getDownToParent h this a ≫= descend (Z.to_nat b) h.
Proof.
  intros Ha Hb. unfold getDownToParent.
  rewrite Z2Nat.inj_add by done. apply descend_add.
Qed.

Lemma getDownToParent_add_witness :
  getDownToParent sequence_store 0%nat (1 + 1) =
    getDownToParent sequence_store 0%nat 1 ≫= descend (Z.to_nat 1) sequence_store.
Proof. apply (getDownToParent_add sequence_store 0%nat 1 1); lia. Defined.

(** X14: one level below a leaf there is no node: the descent gives
    [undefined], a deeper descent raises, and so do [add], [shift] and
    [remove] with a non-zero [right] at that level. *)
Theorem below_leaf_raises (h : store) (a tree : addr) (t tt : SgfTree)
    (d r : Z) (left : bool) :
  h !! a = Some t → children t = [] → h !! tree = Some tt → 2 ≤ d →
  getDownToParent h a 1 = Ok None ∧
  getDownToParent h a d = TypeError ∧
  add h a tree (mkCoordinates 1 r) = TypeError ∧
  (r ≠ 0 → remove h a (mkCoordinates 1 r) = TypeError) ∧
  shift h a (mkCoordinates 1 r) left = TypeError.
Proof.
  intros Ha Hleaf Htree Hd.
  assert (getDownToParent h a 1 = Ok None) as H1.
  { unfold getDownToParent. simpl. by rewrite (deref_Some _ _ _ Ha), bind_ok_l, Hleaf. }
  split; [done|]. split.
  { replace d with (1 + (d - 1)) by lia.
    unfold getDownToParent at 1. rewrite Z2Nat.inj_add, descend_add by lia.
    fold (getDownToParent h a 1). rewrite H1, bind_ok_l, descend_None.
    destruct (decide _); [lia|done]. }
  split; [|split].
  - unfold add. cbn [down]. by rewrite H1, bind_ok_l, (deref_Some _ _ _ Htree).
  - intros Hr. unfold remove. cbn [down right]. rewrite H1, bind_ok_l.
    by destruct (Z.eqb_spec r 0).
  - unfold shift. cbn [down]. by rewrite H1.
Qed.

Lemma below_leaf_raises_witness :
  getDownToParent sequence_store 2%nat 1 = Ok None ∧
  getDownToParent sequence_store 2%nat 2 = TypeError ∧
  add sequence_store 2%nat 1%nat (mkCoordinates 1 1) = TypeError ∧
  (1 ≠ 0 → remove sequence_store 2%nat (mkCoordinates 1 1) = TypeError) ∧
  shift sequence_store 2%nat (mkCoordinates 1 1) false = TypeError.
Proof.
  refine (below_leaf_raises sequence_store 2%nat 1%nat _ _ 2 1 false
            eq_refl eq_refl eq_refl _).
  lia.
Defined.

Lemma array_get_Ok {A} (xs : list A) (i : Z) (x : A) :
  array_get xs i = Ok x ↔ 0 ≤ i ∧ xs !! Z.to_nat i = Some x.
Proof.
  unfold array_get. destruct (Z.ltb_spec i 0).
  - split; [done|lia].
  - destruct (xs !! Z.to_nat i) as [x'|].
    + split; [by intros [= ->]|by intros [_ [= ->]]].
    + split; [done|by intros [_ ?]].
Qed.

Lemma array_set_Ok {A} (xs : list A) (i : Z) (x : A) (c : list A) :
  array_set xs i x = Ok c ↔
    (0 ≤ i < Z.of_nat (length xs)) ∧ c = <[Z.to_nat i := x]> xs.
Proof.
  unfold array_set.
  destruct (Z.leb_spec 0 i), (Z.ltb_spec i (Z.of_nat (length xs))); simpl;
    (split; [try done; by intros [= <-]|intros [? ->]; try done; lia]).
Qed.

Lemma array_set_in {A} (xs : list A) (i : Z) (x : A) :
  0 ≤ i < Z.of_nat (length xs) → array_set xs i x = Ok (<[Z.to_nat i := x]> xs).
Proof. intros H. by apply array_set_Ok. Qed.

Lemma swap_Permutation {A} (xs : list A) (i j : nat) (x y : A) :
  xs !! i = Some x → xs !! j = Some y →
  <[i := y]> (<[j := x]> xs) ≡ₚ xs.
Proof.
  intros Hi Hj.
  pose proof (lookup_lt_Some _ _ _ Hi). pose proof (lookup_lt_Some _ _ _ Hj).
  apply Permutation_inj. split; [by rewrite !length_insert|].
  exists (λ k, if decide (k = i) then j else if decide (k = j) then i else k).
  split.
  - intros a b. repeat destruct (decide _); congruence.
  - intros k. rewrite !list_lookup_insert, !length_insert.
    repeat destruct (decide _); subst; try done; try congruence; lia.
Qed.

Lemma swap_swap {A} (xs : list A) (i j : nat) (x y : A) :
  i ≠ j → xs !! i = Some x → xs !! j = Some y →
  <[i := x]> (<[j := y]> (<[i := y]> (<[j := x]> xs))) = xs.
Proof.
  intros Hij Hi Hj.
  rewrite (list_insert_insert_ne _ j i) by done.
  rewrite list_insert_insert_eq, list_insert_insert_eq.
  rewrite (list_insert_id xs j y) by done. by apply list_insert_id.
Qed.

(** What a successful [shift] has done: the two children it names are
    there, and they have changed places. *)
Lemma shift_Ok (h h' : store) (this : addr) (d r : Z) (left : bool) :
  shift h this (mkCoordinates d r) left = Ok h' ↔
  ∃ p pr x y,
    getDownToParent h this d = Ok (Some p) ∧ h !! p = Some pr ∧
    0 ≤ r - 1 ∧ 0 ≤ (if left then r - 2 else r) ∧
    children pr !! Z.to_nat (r - 1) = Some x ∧
    children pr !! Z.to_nat (if left then r - 2 else r) = Some y ∧
    h' = <[p := set_children
                  (<[Z.to_nat (r - 1) := y]>
                     (<[Z.to_nat (if left then r - 2 else r) := x]> (children pr)))
                  pr]> h.
Proof.
  unfold shift. cbn [down right]. split.
  - intros H. apply bind_Ok in H as ([p|] & Hd & H); [|done].
    apply bind_Ok in H as (pr & Hp & H). apply deref_Ok in Hp.
    apply bind_Ok in H as (x & Hx & H). apply array_get_Ok in Hx as [Hr Hx].
    exists p, pr, x.
    destruct left.
    + apply bind_Ok in H as (y & Hy & H). apply array_get_Ok in Hy as [Hr' Hy].
      apply bind_Ok in H as (c1 & H1 & H). apply array_set_Ok in H1 as [_ ->].
      apply bind_Ok in H as (c2 & H2 & H). apply array_set_Ok in H2 as [_ ->].
      injection H as <-. by exists y.
    + apply bind_Ok in H as (y & Hy & H). apply array_get_Ok in Hy as [Hr' Hy].
      apply bind_Ok in H as (c1 & H1 & H). apply array_set_Ok in H1 as [_ ->].
      apply bind_Ok in H as (c2 & H2 & H). apply array_set_Ok in H2 as [_ ->].
      injection H as <-. by exists y.
  - intros (p & pr & x & y & Hd & Hp & Hr & Hr' & Hx & Hy & ->).
    rewrite Hd, bind_ok_l, (deref_Some _ _ _ Hp), bind_ok_l.
    rewrite (proj2 (array_get_Ok _ _ x) (conj Hr Hx)), bind_ok_l.
    pose proof (lookup_lt_Some _ _ _ Hx). pose proof (lookup_lt_Some _ _ _ Hy).
    destruct left.
    + rewrite (proj2 (array_get_Ok _ _ y) (conj Hr' Hy)), bind_ok_l.
      rewrite (array_set_in (children pr) (r - 2) x), bind_ok_l by lia.
      by rewrite array_set_in by (rewrite length_insert; lia).
    + rewrite (proj2 (array_get_Ok _ _ y) (conj Hr' Hy)), bind_ok_l.
      rewrite (array_set_in (children pr) r x), bind_ok_l by lia.
      by rewrite array_set_in by (rewrite length_insert; lia).
Qed.

(** A descent that does not pass through [p] before its last step reads
    the children of no other node than those a store agreeing outside [p]
    has. *)
Lemma descend_agree n : ∀ (h h1 : store) cur p q,
  (∀ a t, a ≠ p → h !! a = Some t →
          ∃ t1, h1 !! a = Some t1 ∧ children t1 = children t) →
  (∀ k, (k < n)%nat → descend k h cur ≠ Ok (Some p)) →
  descend n h cur = Ok q → descend n h1 cur = Ok q.
Proof.
  induction n as [|n IH]; intros h h1 cur p q Hag Hpath Hd; [done|].
  cbn [descend] in *. destruct cur as [a|]; [|done].
  apply bind_Ok in Hd as (t & Ht & Hd). apply deref_Ok in Ht.
  assert (a ≠ p) as Hap by (intros ->; by apply (Hpath 0%nat); [lia|]).
  destruct (Hag a t Hap Ht) as (t1 & H1 & Hc).
  rewrite (deref_Some _ _ _ H1), bind_ok_l, Hc.
  apply (IH h h1 _ p q); [done| |done].
  intros k Hk Hd'. apply (Hpath (S k)); [lia|].
  cbn [descend]. by rewrite (deref_Some _ _ _ Ht), bind_ok_l.
Qed.

Lemma insert_agree (h : store) (p : addr) (n : SgfTree) :
  ∀ a t, a ≠ p → h !! a = Some t →
         ∃ t1, <[p := n]> h !! a = Some t1 ∧ children t1 = children t.
Proof. intros a t Hap Ha. exists t. by rewrite list_lookup_insert_ne. Qed.

(** Inside the bounds [shift] returns, and the two children have changed
    places. *)
Lemma shift_inside (h : store) (this p : addr) (pr : SgfTree) (d r : Z)
    (left : bool) :
  getDownToParent h this d = Ok (Some p) → h !! p = Some pr →
  inside (length (children pr)) r left = true →
  ∃ x y,
    children pr !! Z.to_nat (r - 1) = Some x ∧
    children pr !! Z.to_nat (if left then r - 2 else r) = Some y ∧
    Z.to_nat (r - 1) ≠ Z.to_nat (if left then r - 2 else r) ∧
    shift h this (mkCoordinates d r) left =
      Ok (<[p := set_children
                   (<[Z.to_nat (r - 1) := y]>
                      (<[Z.to_nat (if left then r - 2 else r) := x]>
                         (children pr)))
                   pr]> h).
Proof.
  intros Hd Hp Hin.
  assert (0 ≤ r - 1 ∧ 0 ≤ (if left then r - 2 else r) ∧
          (Z.to_nat (r - 1) < length (children pr))%nat ∧
          (Z.to_nat (if left then r - 2 else r) < length (children pr))%nat ∧
          Z.to_nat (r - 1) ≠ Z.to_nat (if left then r - 2 else r))
    as (Hr & Hr' & Hi & Hj & Hne).
  { unfold inside in Hin. destruct left; apply andb_true_iff in Hin as [H1 H2];
      apply Z.leb_le in H1;
      [apply Z.leb_le in H2|apply Z.ltb_lt in H2]; lia. }
  destruct (lookup_lt_is_Some_2 _ _ Hi) as [x Hx].
  destruct (lookup_lt_is_Some_2 _ _ Hj) as [y Hy].
  exists x, y. split; [done|]. split; [done|]. split; [done|].
  apply shift_Ok. by exists p, pr, x, y.
Qed.

(** X15: inside the bounds [shift] only reorders: when the child at
    [right] and the neighbour it changes places with both exist, [shift]
    returns, and in the store it returns every node has the children it
    had, in some order, and the parent it had. *)
Theorem shift_permutes_children (h : store) (this p : addr) (pr : SgfTree)
    (d r : Z) (left : bool) :
  getDownToParent h this d = Ok (Some p) → h !! p = Some pr →
  inside (length (children pr)) r left = true →
  ∃ h', shift h this (mkCoordinates d r) left = Ok h' ∧
    ∀ a t, h !! a = Some t →
      ∃ t', h' !! a = Some t' ∧ children t' ≡ₚ children t ∧
            parent t' = parent t.
Proof.
  intros Hd Hp Hin.
  destruct (shift_inside h this p pr d r left Hd Hp Hin)
    as (x & y & Hx & Hy & _ & ->).
  eexists. split; [done|]. intros a t Ha.
  destruct (decide (a = p)) as [->|Hap].
  - rewrite list_lookup_insert_eq by eauto using lookup_lt_Some.
    eexists; split; [done|]. assert (t = pr) as -> by congruence.
    split; [|done]. by apply swap_Permutation.
  - exists t. by rewrite list_lookup_insert_ne.
Qed.

Lemma shift_permutes_children_witness :
  getDownToParent collection_store 0%nat 0 = Ok (Some 0%nat) ∧
  inside 2 1 false = true ∧
  ∃ h', shift collection_store 0%nat (mkCoordinates 0 1) false = Ok h' ∧
    ∀ a t, collection_store !! a = Some t →
      ∃ t', h' !! a = Some t' ∧ children t' ≡ₚ children t ∧
            parent t' = parent t.
Proof.
  split; [reflexivity|]. split; [reflexivity|].
  exact (shift_permutes_children collection_store 0%nat 0%nat _ 0 1 false
           eq_refl eq_refl eq_refl).
Defined.


(** X17: inside the bounds [shift] is its own inverse: when the child at
    [right] and the neighbour it changes places with both exist, and the
    descent does not pass through the node reached before its last step,
    [shift] returns, and the same call on the store it returns gives the
    first store back. *)
Theorem shift_twice_restores (h : store) (this p : addr) (pr : SgfTree)
    (d r : Z) (left : bool) :
  getDownToParent h this d = Ok (Some p) →
  (∀ k, (k < Z.to_nat d)%nat → descend k h (Some this) ≠ Ok (Some p)) →
  h !! p = Some pr →
  inside (length (children pr)) r left = true →
  ∃ h', shift h this (mkCoordinates d r) left = Ok h' ∧
        shift h' this (mkCoordinates d r) left = Ok h.
Proof.
  intros Hd Hpath Hp Hin.
  destruct (shift_inside h this p pr d r left Hd Hp Hin)
    as (x & y & Hx & Hy & Hne & Hs).
  eexists. split; [exact Hs|].
  pose proof (lookup_lt_Some _ _ _ Hp) as Hlt.
  pose proof (lookup_lt_Some _ _ _ Hx). pose proof (lookup_lt_Some _ _ _ Hy).
  assert (0 ≤ r - 1 ∧ 0 ≤ (if left then r - 2 else r)) as [Hr Hr'].
  { unfold inside in Hin. destruct left; apply andb_true_iff in Hin as [H1 _];
      apply Z.leb_le in H1; lia. }
  apply shift_Ok. eexists p, _, y, x. split.
  { apply (descend_agree _ h _ _ p); [apply insert_agree|done|done]. }
  split; [by apply list_lookup_insert_eq|].
  split; [done|]. split; [done|]. cbn [children set_children].
  split. { by rewrite list_lookup_insert_eq by (rewrite length_insert; lia). }
  split. { rewrite list_lookup_insert_ne by done.
           by rewrite list_lookup_insert_eq by lia. }
  rewrite list_insert_insert_eq. destruct pr as [dt cs pa das].
  cbn [children set_children] in *.
  rewrite (swap_swap cs _ _ x y) by done.
  by rewrite list_insert_id.
Qed.

Lemma shift_twice_restores_witness :
  getDownToParent collection_store 0%nat 0 = Ok (Some 0%nat) ∧
  inside 2 2 true = true ∧
  ∃ h', shift collection_store 0%nat (mkCoordinates 0 2) true = Ok h' ∧
        shift h' 0%nat (mkCoordinates 0 2) true = Ok collection_store.
Proof.
  split; [reflexivity|]. split; [reflexivity|].
  refine (shift_twice_restores collection_store 0%nat 0%nat _ 0 2 true
            eq_refl _ eq_refl eq_refl).
  intros k Hk. simpl in Hk. lia.
Defined.

Lemma splice_insert_index {A} (i : Z) (x : A) (xs : list A) :
  0 ≤ i ≤ Z.of_nat (length xs) →
  splice_insert i x xs = take (Z.to_nat i) xs ++ x :: drop (Z.to_nat i) xs.
Proof.
  intros Hi. unfold splice_insert, splice_start.
  destruct (Z.ltb_spec i 0); [lia|]. by rewrite Z.min_l by lia.
Qed.

Lemma splice_insert_end {A} (i : Z) (x : A) (xs : list A) :
  Z.of_nat (length xs) ≤ i → splice_insert i x xs = xs ++ [x].
Proof.
  intros Hi. unfold splice_insert, splice_start.
  destruct (Z.ltb_spec i 0); [lia|].
  by rewrite Z.min_r, Nat2Z.id, take_ge, drop_ge by lia.
Qed.

Lemma splice_remove_insert {A} (i : Z) (x : A) (xs : list A) :
  0 ≤ i ≤ Z.of_nat (length xs) →
  splice_remove i (splice_insert i x xs) = xs.
Proof.
  intros Hi. rewrite splice_remove_index, splice_insert_index by lia.
  rewrite <- (length_take_le xs (Z.to_nat i)) at 1 by lia.
  rewrite delete_middle. apply take_drop.
Qed.

Lemma splice_remove_past {A} (i : Z) (xs : list A) :
  Z.of_nat (length xs) ≤ i → splice_remove i xs = xs.
Proof.
  intros Hi. rewrite splice_remove_index by lia.
  rewrite delete_take_drop, drop_ge, take_ge by lia. apply app_nil_r.
Qed.

Lemma splice_insert_length {A} (i : Z) (x : A) (xs : list A) :
  length (splice_insert i x xs) = S (length xs) ∧ x ∈ splice_insert i x xs.
Proof.
  unfold splice_insert. split.
  - rewrite length_app. cbn [length]. rewrite length_take, length_drop. lia.
  - apply elem_of_app. right. left.
Qed.

(** What a successful [add] has done, for any list put in place of the
    children of the node reached. *)
Lemma add_Ok (h h' : store) (this tree : addr) (d r : Z) :
  add h this tree (mkCoordinates d r) = Ok h' ↔
  ∃ p tt pr,
    getDownToParent h this d = Ok (Some p) ∧ h !! tree = Some tt ∧
    <[tree := set_parent (Some p) tt]> h !! p = Some pr ∧
    h' = <[p := set_children (splice_insert (r - 1) tree (children pr)) pr]>
           (<[tree := set_parent (Some p) tt]> h).
Proof.
  unfold add. cbn [down right]. split.
  - intros H. apply bind_Ok in H as (q & Hd & H).
    apply bind_Ok in H as (tt & Ht & H). apply deref_Ok in Ht.
    destruct q as [p|]; [|done].
    apply bind_Ok in H as (pr & Hp & H). apply deref_Ok in Hp.
    injection H as <-. by exists p, tt, pr.
  - intros (p & tt & pr & Hd & Ht & Hp & ->).
    by rewrite Hd, bind_ok_l, (deref_Some _ _ _ Ht), bind_ok_l,
               (deref_Some _ _ _ Hp), bind_ok_l.
Qed.

(** The node reached, once the parent field of [tree] is written: it has
    the children it had. *)
Lemma add_parent_node (h : store) (tree p : addr) (tt pr : SgfTree) :
  h !! tree = Some tt → h !! p = Some pr →
  ∃ pr1, <[tree := set_parent (Some p) tt]> h !! p = Some pr1 ∧
         children pr1 = children pr.
Proof.
  intros Ht Hp. pose proof (lookup_lt_Some _ _ _ Ht).
  destruct (decide (p = tree)) as [->|Hne].
  - exists (set_parent (Some tree) tt). rewrite list_lookup_insert_eq by done.
    split; [done|]. by assert (pr = tt) as -> by congruence.
  - exists pr. by rewrite list_lookup_insert_ne.
Qed.

Lemma add_agree (h : store) (tree p : addr) (tt n : SgfTree) :
  h !! tree = Some tt →
  ∀ a t, a ≠ p → h !! a = Some t →
    ∃ t1, <[p := n]> (<[tree := set_parent (Some p) tt]> h) !! a = Some t1 ∧
          children t1 = children t.
Proof.
  intros Ht a t Hap Ha. rewrite list_lookup_insert_ne by done.
  pose proof (lookup_lt_Some _ _ _ Ht).
  destruct (decide (a = tree)) as [->|Hne].
  - exists (set_parent (Some p) tt). rewrite list_lookup_insert_eq by done.
    split; [done|]. by assert (t = tt) as -> by congruence.
  - exists t. by rewrite list_lookup_insert_ne.
Qed.

Lemma set_children_id (cs : list addr) (t : SgfTree) :
  set_children (children t) (set_children cs t) = t.
Proof. by destruct t. Qed.

(** X18: [remove] undoes [add]: for a [right] from 1 to one more than the
    number of children of the node reached, and a descent that does not
    pass through that node before its last step, [add] returns and
    [remove] at the same coordinates gives back the store in which only
    the parent field of the added node has changed. *)
Theorem remove_undoes_add (h : store) (this tree p : addr) (tt pr : SgfTree)
    (d r : Z) :
  getDownToParent h this d = Ok (Some p) →
  (∀ k, (k < Z.to_nat d)%nat → descend k h (Some this) ≠ Ok (Some p)) →
  h !! tree = Some tt → h !! p = Some pr →
  1 ≤ r ≤ Z.of_nat (length (children pr)) + 1 →
  ∃ h1, add h this tree (mkCoordinates d r) = Ok h1 ∧
        remove h1 this (mkCoordinates d r) =
          Ok (<[tree := set_parent (Some p) tt]> h).
Proof.
  intros Hd Hpath Ht Hp Hr.
  destruct (add_parent_node h tree p tt pr Ht Hp) as (pr1 & Hp1 & Hc).
  eexists. split.
  { apply add_Ok. by exists p, tt, pr1. }
  unfold remove. cbn [down right].
  pose proof (lookup_lt_Some _ _ _ Hp1) as Hlt.
  unfold getDownToParent.
  rewrite (descend_agree _ h _ _ p (Some p) (add_agree h tree p tt _ Ht) Hpath Hd).
  rewrite bind_ok_l. destruct (Z.eqb_spec r 0); [lia|].
  rewrite (deref_Some _ _ _ (list_lookup_insert_eq _ _ _ Hlt)), bind_ok_l.
  cbn [children set_children]. rewrite Hc.
  rewrite list_insert_insert_eq, splice_remove_insert by lia.
  rewrite <- Hc, set_children_id. by rewrite list_insert_id.
Qed.

Lemma remove_undoes_add_witness :
  ∃ h1, add collection_store 0%nat 2%nat (mkCoordinates 0 3) = Ok h1 ∧
        remove h1 0%nat (mkCoordinates 0 3) = Ok collection_store.
Proof.
  refine (remove_undoes_add collection_store 0%nat 2%nat 0%nat _ _ 0 3
            eq_refl _ eq_refl eq_refl _).
  - intros k Hk. simpl in Hk. lia.
  - simpl. lia.
Defined.

(** X19: past the end the two calls do not match: for a [right] greater
    than one more than the number of children, [add] appends the node, and
    [remove] at the same coordinates returns the store unchanged, with the
    node still in place. *)
Theorem remove_past_end_keeps_added (h : store) (this tree p : addr)
    (tt pr : SgfTree) (d r : Z) :
  getDownToParent h this d = Ok (Some p) →
  (∀ k, (k < Z.to_nat d)%nat → descend k h (Some this) ≠ Ok (Some p)) →
  h !! tree = Some tt → h !! p = Some pr →
  Z.of_nat (length (children pr)) + 1 < r →
  ∃ h1 pr1, add h this tree (mkCoordinates d r) = Ok h1 ∧
            h1 !! p = Some pr1 ∧ children pr1 = children pr ++ [tree] ∧
            remove h1 this (mkCoordinates d r) = Ok h1.
Proof.
  intros Hd Hpath Ht Hp Hr.
  destruct (add_parent_node h tree p tt pr Ht Hp) as (pr0 & Hp0 & Hc).
  pose proof (lookup_lt_Some _ _ _ Hp0) as Hlt.
  eexists _, _. split.
  { apply add_Ok. by exists p, tt, pr0. }
  split; [by apply list_lookup_insert_eq|].
  cbn [children set_children]. rewrite Hc, splice_insert_end by lia.
  split; [done|].
  unfold remove. cbn [down right]. unfold getDownToParent.
  rewrite (descend_agree _ h _ _ p (Some p) (add_agree h tree p tt _ Ht) Hpath Hd).
  rewrite bind_ok_l. destruct (Z.eqb_spec r 0); [lia|].
  rewrite (deref_Some _ _ _ (list_lookup_insert_eq _ _ _ Hlt)), bind_ok_l.
  cbn [children set_children].
  rewrite splice_remove_past by (rewrite length_app; cbn [length]; lia).
  rewrite list_insert_insert_eq. by destruct pr0.
Qed.

Lemma remove_past_end_keeps_added_witness :
  ∃ h1 pr1, add sequence_store 0%nat 2%nat (mkCoordinates 0 9) = Ok h1 ∧
            h1 !! 0%nat = Some pr1 ∧ children pr1 = [1%nat] ++ [2%nat] ∧
            remove h1 0%nat (mkCoordinates 0 9) = Ok h1.
Proof.
  refine (remove_past_end_keeps_added sequence_store 0%nat 2%nat 0%nat _ _ 0 9
            eq_refl _ eq_refl eq_refl _).
  - intros k Hk. simpl in Hk. lia.
  - simpl. lia.
Defined.

(** X20: wherever [right] points, a successful [add] links the node: the
    node reached has one child more, the added node is among them and
    names it as parent. No other node changes: the former parent of the
    added node still lists it. *)
Theorem add_links_tree (h h' : store) (this tree : addr) (c : TreeCoordinates) :
  add h this tree c = Ok h' →
  ∃ p pr pr' tt',
    getDownToParent h this (down c) = Ok (Some p) ∧
    h !! p = Some pr ∧ h' !! p = Some pr' ∧
    length (children pr') = S (length (children pr)) ∧ tree ∈ children pr' ∧
    h' !! tree = Some tt' ∧ parent tt' = Some p ∧
    ∀ a, a ≠ p → a ≠ tree → h' !! a = h !! a.
Proof.
  destruct c as [d r]. intros H.
  apply add_Ok in H as (p & tt & pr1 & Hd & Ht & Hp1 & ->).
  pose proof (lookup_lt_Some _ _ _ Ht) as Hlt.
  pose proof (lookup_lt_Some _ _ _ Hp1) as Hlp.
  destruct (splice_insert_length (r - 1) tree (children pr1)) as [Hlen Hin].
  destruct (decide (p = tree)) as [->|Hne].
  - rewrite list_lookup_insert_eq in Hp1 by done. injection Hp1 as <-.
    eexists tree, tt, _, _. split; [done|]. split; [done|].
    split; [by apply list_lookup_insert_eq|]. split; [done|]. split; [done|].
    split; [by apply list_lookup_insert_eq|]. split; [done|].
    intros a Ha _. by rewrite !list_lookup_insert_ne.
  - rewrite list_lookup_insert_ne in Hp1 by done.
    eexists p, pr1, _, _. split; [done|]. split; [done|].
    split; [by apply list_lookup_insert_eq|]. split; [done|]. split; [done|].
    split. { rewrite list_lookup_insert_ne by done.
             by apply list_lookup_insert_eq. }
    split; [done|].
    intros a Ha Ha'. by rewrite !list_lookup_insert_ne.
Qed.

Lemma add_links_tree_witness :
  add sequence_store 0%nat 2%nat (mkCoordinates 0 (-5)) =
    Ok [mkSgfTree [] [2%nat; 1%nat] None (Some "");
        mkSgfTree [("B", PStr "aa")] [2%nat] (Some 0%nat) (Some "B[aa]");
        mkSgfTree [("W", PStr "bb")] [] (Some 0%nat) (Some "W[bb]")] ∧
  ∃ p pr pr' tt',
    getDownToParent sequence_store 0%nat 0 = Ok (Some p) ∧
    sequence_store !! p = Some pr ∧
    [mkSgfTree [] [2%nat; 1%nat] None (Some "");
     mkSgfTree [("B", PStr "aa")] [2%nat] (Some 0%nat) (Some "B[aa]");
     mkSgfTree [("W", PStr "bb")] [] (Some 0%nat) (Some "W[bb]")] !! p = Some pr' ∧
    length (children pr') = S (length (children pr)) ∧ 2%nat ∈ children pr' ∧
    [mkSgfTree [] [2%nat; 1%nat] None (Some "");
     mkSgfTree [("B", PStr "aa")] [2%nat] (Some 0%nat) (Some "B[aa]");
     mkSgfTree [("W", PStr "bb")] [] (Some 0%nat) (Some "W[bb]")] !! 2%nat
      = Some tt' ∧
    parent tt' = Some p ∧
    ∀ a, a ≠ p → a ≠ 2%nat →
      [mkSgfTree [] [2%nat; 1%nat] None (Some "");
       mkSgfTree [("B", PStr "aa")] [2%nat] (Some 0%nat) (Some "B[aa]");
       mkSgfTree [("W", PStr "bb")] [] (Some 0%nat) (Some "W[bb]")] !! a
        = sequence_store !! a.
Proof.
  split; [reflexivity|].
  exact (add_links_tree sequence_store _ 0%nat 2%nat (mkCoordinates 0 (-5))
           eq_refl).
Defined.

(** X21: [remove] only deletes from a list of children: in the store it
    returns every node has a sublist of the children it had, and the
    parent it had; the node taken out still names its former parent. *)
Theorem remove_keeps_parents (h h' : store) (this : addr) (c : TreeCoordinates) :
  remove h this c = Ok h' →
  ∀ a t, h !! a = Some t →
    ∃ t', h' !! a = Some t' ∧ children t' `sublist_of` children t ∧
          parent t' = parent t.
Proof.
  destruct c as [d r]. unfold remove. cbn [down right]. intros H a t Ha.
  apply bind_Ok in H as (q & _ & H).
  destruct (Z.eqb_spec r 0).
  { injection H as <-. by exists t. }
  destruct q as [p|]; [|done].
  apply bind_Ok in H as (pr & Hp & H). apply deref_Ok in Hp. injection H as <-.
  destruct (decide (a = p)) as [->|Hap].
  - rewrite list_lookup_insert_eq by eauto using lookup_lt_Some.
    eexists; split; [done|]. assert (t = pr) as -> by congruence.
    split; [|done]. apply sublist_delete.
  - exists t. by rewrite list_lookup_insert_ne.
Qed.

Lemma remove_keeps_parents_witness :
  remove collection_store 0%nat (mkCoordinates 0 1) =
    Ok [mkSgfTree [] [2%nat] None (Some "");
        mkSgfTree [("B", PStr "aa")] [] (Some 0%nat) (Some "B[aa]");
        mkSgfTree [("W", PStr "bb")] [] (Some 0%nat) (Some "W[bb]")] ∧
  ∃ t', [mkSgfTree [] [2%nat] None (Some "");
         mkSgfTree [("B", PStr "aa")] [] (Some 0%nat) (Some "B[aa]");
         mkSgfTree [("W", PStr "bb")] [] (Some 0%nat) (Some "W[bb]")] !! 1%nat
          = Some t' ∧
        children t' `sublist_of` [] ∧ parent t' = Some 0%nat.
Proof.
  split; [reflexivity|].
  exact (remove_keeps_parents collection_store _ 0%nat (mkCoordinates 0 1)
           eq_refl 1%nat _ eq_refl).
Defined.

(** ** [shift] outside the bounds *)

Lemma is_index_spec (i : Z) : is_index i = true ↔ 0 ≤ i < 4294967295.
Proof.
  unfold is_index. change (2 ^ 32 - 1) with 4294967295.
  rewrite andb_true_iff, Z.leb_le, Z.ltb_lt. done.
Qed.













Lemma js_get_index (a : JsArray) (i : Z) :
  0 ≤ i < 4294967295 → js_get a i = elements a !! Z.to_nat i ≫= node_of.
Proof.
  intros Hi. unfold js_get. rewrite (proj2 (is_index_spec i) Hi).
  by destruct (elements a !! Z.to_nat i) as [[| |x]|].
Qed.

Lemma js_set_inside (es : list slot) os (i : Z) (v : option addr) :
  0 ≤ i < 4294967295 → (Z.to_nat i < length es)%nat →
  js_set (mkJsArray es os) i v = mkJsArray (<[Z.to_nat i := slot_of v]> es) os.
Proof.
  intros Hi Hlt. unfold js_set. rewrite (proj2 (is_index_spec i) Hi).
  cbn [elements others].
  by destruct (Nat.ltb_spec (Z.to_nat i) (length es)); [|lia].
Qed.

Lemma js_set_end (es : list slot) os (i : Z) (v : option addr) :
  0 ≤ i < 4294967295 → Z.to_nat i = length es →
  js_set (mkJsArray es os) i v = mkJsArray (es ++ [slot_of v]) os.
Proof.
  intros Hi Hlt. unfold js_set. rewrite (proj2 (is_index_spec i) Hi).
  cbn [elements others].
  destruct (Nat.ltb_spec (Z.to_nat i) (length es)); [lia|].
  by rewrite Hlt, Nat.sub_diag.
Qed.

Lemma lookup_last_two {A} (l : list A) (s t : A) :
  (l ++ [s; t]) !! length l = Some s ∧ (l ++ [s; t]) !! S (length l) = Some t.
Proof.
  split; rewrite lookup_app_r by lia.
  - by rewrite Nat.sub_diag.
  - by replace (S (length l) - length l)%nat with 1%nat by lia.
Qed.

Lemma insert_last_two {A} (l : list A) (s t u : A) :
  <[length l := u]> (l ++ [s; t]) = l ++ [u; t] ∧
  <[S (length l) := u]> (l ++ [s; t]) = l ++ [s; u].
Proof.
  split.
  - rewrite <- (Nat.add_0_r (length l)). by rewrite insert_app_r.
  - replace (S (length l)) with (length l + 1)%nat by lia.
    by rewrite insert_app_r.
Qed.

(** X24: shifting the last child to the right does not fail: the array
    grows by one, the child sits one position further and [undefined] is
    left in its place; the same call again puts the child back and leaves
    [undefined] at the end, so the first array does not come back. *)
Theorem shift_last_right_leaves_undefined (l : list addr) (x : addr) :
  Z.of_nat (length l) + 1 < 4294967295 →
  shift_array (of_list (l ++ [x])) (Z.of_nat (length l) + 1) false =
    mkJsArray ((Item <$> l) ++ [Undefined; Item x]) [] ∧
  shift_array (mkJsArray ((Item <$> l) ++ [Undefined; Item x]) [])
              (Z.of_nat (length l) + 1) false =
    mkJsArray ((Item <$> l) ++ [Item x; Undefined]) [].
Proof.
  intros Hlen. unfold shift_array, of_list.
  rewrite fmap_app. cbn [fmap list_fmap]. fold (fmap Item l).
  rewrite <- (length_fmap Item l) in *.
  set (es := Item <$> l) in *.
  replace (Z.of_nat (length es) + 1 - 1) with (Z.of_nat (length es)) by lia.
  assert (Z.to_nat (Z.of_nat (length es)) = length es) as E0 by lia.
  assert (Z.to_nat (Z.of_nat (length es) + 1) = S (length es)) as E1 by lia.
  split.
  - rewrite !js_get_index by lia. cbn [elements]. rewrite E0, E1.
    rewrite lookup_app_r, Nat.sub_diag by lia.
    rewrite (lookup_ge_None_2 (es ++ [Item x]))
      by (rewrite length_app; cbn [length]; lia).
    cbn [lookup list_lookup mbind option_bind node_of].
    rewrite js_set_end by (rewrite ?length_app; cbn [length]; lia).
    rewrite <- app_assoc. cbn [app slot_of].
    rewrite js_set_inside by (rewrite ?length_app; cbn [length]; lia).
    rewrite E0. by rewrite (proj1 (insert_last_two es _ _ _)).
  - rewrite !js_get_index by lia. cbn [elements]. rewrite E0, E1.
    rewrite (proj1 (lookup_last_two es _ _)), (proj2 (lookup_last_two es _ _)).
    cbn [mbind option_bind node_of].
    rewrite js_set_inside by (rewrite ?length_app; cbn [length]; lia).
    rewrite E1, (proj2 (insert_last_two es _ _ _)). cbn [slot_of].
    rewrite js_set_inside by (rewrite ?length_app; cbn [length]; lia).
    rewrite E0. by rewrite (proj1 (insert_last_two es _ _ _)).
Qed.

Lemma shift_last_right_leaves_undefined_witness :
  shift_array (of_list ([1%nat] ++ [2%nat])) (Z.of_nat (length [1%nat]) + 1)
              false =
    mkJsArray ((Item <$> [1%nat]) ++ [Undefined; Item 2%nat]) [] ∧
  shift_array (mkJsArray ((Item <$> [1%nat]) ++ [Undefined; Item 2%nat]) [])
              (Z.of_nat (length [1%nat]) + 1) false =
    mkJsArray ((Item <$> [1%nat]) ++ [Item 2%nat; Undefined]) [].
Proof.
  apply (shift_last_right_leaves_undefined [1%nat] 2%nat). simpl. lia.
Defined.

(** X25: shifting the first child to the left does not fail either: it
    reads and writes under the number -1, which is no index, so the child
    becomes the property [-1] of the array and [undefined] takes its
    place among the elements. *)
Theorem shift_first_left_sets_property (x : addr) (l : list addr) :
  shift_array (of_list (x :: l)) 1 true =
    mkJsArray (Undefined :: (Item <$> l)) [(-1, Some x)].
Proof. reflexivity. Qed.
